(** * Reinsurance cessions: a shallow embedding of
      [openquake/risklib/reinsurance.py]

    Numbers.  The program computes on IEEE floats (numpy arrays).  Here every
    number is an exact rational ([Q]); equality of amounts is [Qeq] ([==]).
    The rounding of floating-point arithmetic itself is not modelled; the
    explicit [np.round(v, 6)] of the program is.

    Arrays.  A one-dimensional numpy array is a [list Q].  A matrix of shape
    (E, C) is held as the list of its C columns, each a list of E numbers, so
    that the column view [data[:, j]] is the j-th element of the list.

    Dictionaries are [gmap]s with string keys; exceptions are values of the
    type [exn], threaded by the [result] monad. *)

From Stdlib Require Import QArith Qround Qabs Qminmax Lqa ZArith Lia.
From Stdlib Require Import String Ascii.
From stdpp Require Import base option list sorting strings gmap fin_maps.

Local Open Scope Q_scope.

(** ** Exceptions *)

Inductive exn : Type :=
| AssertionError
| KeyError
| IndexError
| ValueError
| RecursionError.

Inductive result (A : Type) : Type :=
| Ok (a : A)
| Raise (e : exn).
Arguments Ok {A} a.
Arguments Raise {A} e.

#[global] Instance result_ret : MRet result := fun _ a => Ok a.
#[global] Instance result_bind : MBind result := fun _ _ f m =>
  match m with
  | Ok a => f a
  | Raise e => Raise e
  end.

(** [d[k]] on a dictionary: [KeyError] when the key is absent. *)
Definition getitem {V} (d : gmap string V) (k : string) : result V :=
  match d !! k with
  | Some v => Ok v
  | None => Raise KeyError
  end.

(** ** Numbers and arrays *)

(** [x > y] on numbers. *)
Definition Qgtb (x y : Q) : bool := negb (Qle_bool x y).

(** [np.zeros(n)] *)
Definition np_zeros (n : nat) : list Q := replicate n 0.

(** ** The treaty-split primitive, source lines 135-147 *)

(** One iteration of the loop of [apply_treaty], at an index where the
    retention holds [ret] and the cession holds [ces]: the new cession and
    the new retention at that index. *)
Definition apply_treaty_at (ces ret deduc capacity : Q) : Q * Q :=
  let overmax := ret - deduc in
  if Qgtb ret deduc then
    if Qgtb overmax capacity then (capacity, deduc + overmax - capacity)
    else (overmax, deduc)
  else (ces, ret).

(** [apply_treaty(cession, retention, deduc, capacity)] updates both arrays in
    place; the model returns the pair (cession, retention) after the loop.
    The loop runs over the indices of [retention]; the compiled code does no
    bounds check on [cession], and both call sites pass two arrays of the
    same length, the domain on which this function follows the source. *)
Fixpoint apply_treaty (cession retention : list Q) (deduc capacity : Q)
  : list Q * list Q :=
  match retention, cession with
  | ret :: retention', ces :: cession' =>
      let '(c, r) := apply_treaty_at ces ret deduc capacity in
      let '(cs, rs) := apply_treaty cession' retention' deduc capacity in
      (c :: cs, r :: rs)
  | _, _ => (cession, retention)
  end.


(** ** Monadic folds and numpy helpers *)

Fixpoint foldlM {A B} (f : B -> A -> result B) (b : B) (l : list A)
  : result B :=
  match l with
  | [] => Ok b
  | x :: l' => b' ← f b x; foldlM f b' l'
  end.

(** Python's [sum]: a left fold from 0. *)
Definition Qsum (l : list Q) : Q := foldl Qplus 0 l.

(** Element-wise sum and difference of two arrays. *)
Definition vadd (a b : list Q) : list Q := zip_with Qplus a b.
Definition vsub (a b : list Q) : list Q := zip_with Qminus a b.

(** [array * k] *)
Definition scale (a : list Q) (k : Q) : list Q := (fun x => x * k) <$> a.

(** Round half to even to an integer, as C's [rint]. *)
Definition rint (x : Q) : Z :=
  let n := Qfloor x in
  match Qcompare (x - inject_Z n) (1 # 2) with
  | Lt => n
  | Gt => (n + 1)%Z
  | Eq => if Z.even n then n else (n + 1)%Z
  end.

(** [np.round(x, 6)] on one number: [rint(x * 10^6) / 10^6]. *)
Definition round6 (x : Q) : Q := inject_Z (rint (x * 1000000)) / 1000000.

(** [np.round(v, 6)] *)
Definition np_round6 (v : list Q) : list Q := round6 <$> v.

(** [np.maximum(v, 0)] *)
Definition np_maximum0 (v : list Q) : list Q := (fun x => Qmax x 0) <$> v.

(** [(v > 0).any()] *)
Definition any_positive (v : list Q) : bool := existsb (fun x => Qgtb x 0) v.

(** ** The catalogs, source lines 30-37 *)

Inductive treaty_type : Type := prop | wxlr | catxl.

#[global] Instance treaty_type_eq_dec : EqDecision treaty_type.
Proof. solve_decision. Defined.

(** A row of [treaty_df].  The code is one symbol of the alphabet BASE183,
    assigned by [parse] in declaration order. *)
Record treaty : Type := Treaty {
  id : string;
  type : treaty_type;
  deductible : Q;
  limit : Q;
  code : ascii
}.

(** The column name under which a code is stored: the one-symbol string. *)
Definition code_key (c : ascii) : string := String c EmptyString.

(** Python truth value of a number, and [x == 0]. *)
Definition truthy (x : Q) : bool := negb (Qeq_bool x 0).

(** ** [claim_to_cessions], source lines 150-173 *)

(** One turn of the loop over the per-policy excess-of-loss treaties. *)
Definition wxlr_cession (claim : list Q) (policy : gmap string Q)
    (out : gmap string (list Q)) (tr : treaty)
  : result (gmap string (list Q)) :=
  let col := id tr in
  let out := <[col := np_zeros (length claim)]> out in
  p ← getitem policy col;
  if truthy p then
    cession ← getitem out col;
    retention ← getitem out "retention";
    let '(c, r) :=
      apply_treaty cession retention (deductible tr)
                   (limit tr - deductible tr) in
    mret (<[col := c]> (<["retention" := r]> out))
  else mret out.

Definition claim_to_cessions (claim : list Q) (policy : gmap string Q)
    (treaty_df : list treaty) : result (gmap string (list Q)) :=
  let cols := id <$> filter (fun t => type t = prop) treaty_df in
  fractions ← mapM (getitem policy) cols;
  if Qle_bool (Qsum fractions) 1 then
    let out : gmap string (list Q) :=
      <["claim" := claim]>
        (<["retention" := scale claim (1 - Qsum fractions)]> ∅) in
    let out :=
      foldl (fun out '(col, frac) => <[col := scale claim frac]> out)
            out (zip cols fractions) in
    let wxl := filter (fun t => type t = wxlr) treaty_df in
    out ← foldlM (wxlr_cession claim policy) out wxl;
    mret (np_round6 <$> (out : gmap string (list Q)))
  else Raise AssertionError.

(** ** [build_policy_grp], source lines 176-189 *)

(** The loop [for c, col in enumerate(cols)], from position [c] on. *)
Fixpoint policy_grp_loop (policy : gmap string Q) (types : list treaty_type)
    (c : nat) (cols : list string) (key : list ascii) : result (list ascii) :=
  match cols with
  | [] => mret key
  | col :: cols' =>
      key' ← match types !! c with
             | Some catxl =>
                 p ← getitem policy col;
                 mret (if Qeq_bool p 0 then <[c := "."%char]> key else key)
             | _ => mret key
             end;
      policy_grp_loop policy types (S c) cols' key'
  end.

Definition build_policy_grp (policy : gmap string Q) (treaty_df : list treaty)
  : result string :=
  let cols := id <$> treaty_df in
  let codes := code <$> treaty_df in
  let types := type <$> treaty_df in
  key ← policy_grp_loop policy types 0 cols codes;
  mret (string_of_list_ascii key).

(** ** The aggregate engine [clever_agg], source lines 196-245 *)

(** A matrix of shape (E, 2+T), as the list of its columns. *)
Abbreviation matrix := (list (list Q)).

(** [data[:, j]] *)
Definition column (data : matrix) (j : nat) : result (list Q) :=
  match data !! j with
  | Some v => Ok v
  | None => Raise IndexError
  end.

(** [treaty_df.loc[code]] on the frame indexed by code: the rows with that
    code, [KeyError] when there is none. *)
Definition loc (tdf : list treaty) (c : ascii) : result (list treaty) :=
  match filter (fun t => code t = c) tdf with
  | [] => Raise KeyError
  | trs => Ok trs
  end.

(** The catastrophe branch, lines 230-232: the overspill, whether some event
    has one, and the cession and retention columns after the split. *)
Definition catxl_branch (tr : treaty) (cession ret : list Q)
  : list Q * bool * (list Q * list Q) :=
  let capacity := limit tr - deductible tr in
  let overspill := (fun r => r - deductible tr - capacity) <$> ret in
  (overspill, any_positive overspill,
   apply_treaty cession ret (deductible tr) capacity).

(** The proportional branch, lines 234-239. *)
Definition prop_branch (tr : treaty) (cession ret : list Q)
  : list Q * bool * (list Q * list Q) :=
  let capacity := limit tr - deductible tr in
  let overspill := (fun c => c - capacity) <$> cession in
  let over := (fun o => Qgtb o 0) <$> overspill in
  let has_over := any_positive overspill in
  if has_over then
    (overspill, has_over,
     (zip_with (fun (o : bool) c => if o then limit tr else c) over cession,
      zip_with (fun (o : bool) '(r, c) => if o then r + (c - limit tr) else r)
               over (zip ret cession)))
  else (overspill, has_over, (cession, ret)).

(** Lines 228-239: the branch on the type of the treaty.  A per-policy
    excess-of-loss treaty is left alone here, with no overspill. *)
Definition treaty_branch (tr : treaty) (cession ret : list Q)
  : list Q * bool * (list Q * list Q) :=
  match type tr with
  | catxl => catxl_branch tr cession ret
  | prop => prop_branch tr cession ret
  | wxlr => ([], false, (cession, ret))
  end.

(** The body of the loop over the groups, lines 221-243, for one key and its
    matrix: the shortened key, the matrix after the in-place updates of its
    retention and cession columns, and the overspill dictionary. *)
Definition agg_group (tdf : list treaty) (idx : gmap string nat)
    (overdict : gmap string (list Q)) (key : string) (data : matrix)
  : result (string * matrix * gmap string (list Q)) :=
  match key with
  | EmptyString => Raise IndexError
  | String c newkey =>
      if decide (c = "."%char) then mret (newkey, data, overdict)
      else
        trs ← loc tdf c;
        jr ← getitem idx "retention";
        ret ← column data jr;
        jc ← getitem idx (code_key c);
        cession ← column data jc;
        match trs with
        | [tr] =>
            let '(overspill, has_over, (cession', ret')) :=
              treaty_branch tr cession ret in
            let data' := <[jc := cession']> (<[jr := ret']> data) in
            let overdict' :=
              if has_over
              then <["over_" +:+ code_key c := np_maximum0 overspill]> overdict
              else overdict in
            mret (newkey, data', overdict')
        | _ => Raise ValueError
        end
  end.

(** The loop [for key, data in zip(ukeys, datalist)]. *)
Fixpoint agg_loop (tdf : list treaty) (idx : gmap string nat)
    (groups : list (string * matrix)) (overdict : gmap string (list Q))
  : result (list (string * matrix) * gmap string (list Q)) :=
  match groups with
  | [] => mret ([], overdict)
  | (key, data) :: groups' =>
      '(newkey, data', overdict') ← agg_group tdf idx overdict key data;
      '(news, overdict'') ← agg_loop tdf idx groups' overdict';
      mret ((newkey, data') :: news, overdict'')
  end.

(** Element-wise sum of two matrices of the same shape. *)
Definition madd (a b : matrix) : matrix := zip_with vadd a b.

(** Add the matrix [m] to the group of key [k], or open a new group. *)
Fixpoint agg_insert (k : string) (m : matrix) (acc : list (string * matrix))
  : list (string * matrix) :=
  match acc with
  | [] => [(k, m)]
  | (k', m') :: acc' =>
      if decide (k = k') then (k', madd m' m) :: acc'
      else (k', m') :: agg_insert k m acc'
  end.

(** Modelled from the spec: [fast_agg2] of [openquake.baselib.general] is not
    among the sources.  The spec's re-aggregation step: "group the now-shorter
    keys and sum matrices element-wise for identical keys".  The order of the
    resulting groups is left open by the spec; here a group stands where its
    key first occurs. *)
Definition fast_agg2 (keys : list string) (values : list matrix)
  : list string * list matrix :=
  let groups :=
    foldl (fun acc '(k, m) => agg_insert k m acc) [] (zip keys values) in
  (groups.*1, groups.*2).

(** [clever_agg(ukeys, datalist, treaty_df, idx, overdict, eids)].  [depth] is
    the number of nested calls the interpreter still allows; the event ids
    [eids] only serve the debugging trace (DEBUG is False) and are left out.
    The dictionary [overdict] is updated in place by the program and is
    returned here with the final matrix. *)
Fixpoint clever_agg (depth : nat) (ukeys : list string) (datalist : list matrix)
    (treaty_df : list treaty) (idx : gmap string nat)
    (overdict : gmap string (list Q))
  : result (matrix * gmap string (list Q)) :=
  match depth with
  | O => Raise RecursionError
  | S depth' =>
      match ukeys, datalist with
      | [EmptyString], [] => Raise IndexError
      | [EmptyString], data :: _ => mret (data, overdict)
      | _, _ =>
          '(news, overdict') ←
            agg_loop treaty_df idx (zip ukeys datalist) overdict;
          let '(keys, sums) := fast_agg2 (news.*1) (news.*2) in
          clever_agg depth' keys sums treaty_df idx overdict'
      end
  end.

(** ** The event-loss aggregation [_by_event], source lines 282-322 *)

(** The table [rbp] of losses by policy and event, column-wise: the event
    ids, the policy group keys and the numeric columns by name. *)
Record policy_loss_table : Type := PolicyLossTable {
  event_id : list Z;
  policy_grp : list string;
  columns : gmap string (list Q)
}.

(** The resulting table by event. *)
Record event_loss_table : Type := EventLossTable {
  out_event_id : list Z;
  out_columns : gmap string (list Q)
}.

(** [np.unique]: the sorted distinct values. *)
Definition np_unique (l : list Z) : list Z := merge_sort Z.le (remove_dups l).

(** The inverse index of [np.unique(..., return_inverse=True)]. *)
Fixpoint index_of (x : Z) (u : list Z) : nat :=
  match u with
  | [] => 0
  | y :: u' => if decide (x = y) then 0%nat else S (index_of x u')
  end.

(** The keys of [DataFrame.groupby], sorted. *)
Definition groupby_keys (l : list string) : list string :=
  merge_sort String.le (remove_dups l).

(** [grp[col].groupby('eid').sum()] scattered into a zero column of length
    [E]: per event index, the sum of the values of the rows of the group
    [key] that belong to the event. *)
Definition group_sum (E : nat) (eid : list nat) (grps : list string)
    (key : string) (values : list Q) : list Q :=
  (fun e =>
     Qsum (omap (fun '(i, g, v) =>
                   if decide (g = key /\ i = e) then Some v else None)
                (zip (zip eid grps) values)))
  <$> seq 0 E.

(** The matrix of one policy group, lines 297-304. *)
Definition group_data (E : nat) (eid : list nat) (rbp : policy_loss_table)
    (inpcols outcols : list string) (key : string) : result matrix :=
  inp ← mapM (getitem (columns rbp)) (tail inpcols);
  let filled := group_sum E eid (policy_grp rbp) key <$> inp in
  let data :=
    np_zeros E :: filled
      ++ replicate (length outcols - length inpcols) (np_zeros E) in
  claim ← column data 1;
  mret (<[0%nat := foldl vsub claim (drop 2 data)]> data).

(** [np.testing.assert_allclose(actual, desired)] with its default
    tolerances rtol = 1e-7 and atol = 0. *)
Definition rtol : Q := 1 # 10000000.

Definition allclose (actual desired : list Q) : bool :=
  forallb (fun '(a, d) => Qle_bool (Qabs (a - d)) (rtol * Qabs d))
          (zip actual desired).

Definition outcols_of (treaty_df : list treaty) : list string :=
  ["retention"; "claim"] ++ (code_key ∘ code <$> treaty_df).

Definition inpcols_of (treaty_df : list treaty) : list string :=
  ["eid"; "claim"]
    ++ (id <$> filter (fun t => type t <> catxl) treaty_df).

(** [{col: i for i, col in enumerate(outcols)}] *)
Definition enumerate_dict (cols : list string) : gmap string nat :=
  foldl (fun d '(i, col) => <[col := i]> d) ∅ (zip (seq 0 (length cols)) cols).

(** The first block, lines 283-307: the canonical event ids, the group keys
    and one matrix per policy group. *)
Definition policy_loss_matrices (rbp : policy_loss_table)
    (treaty_df : list treaty) : result (list Z * list string * list matrix) :=
  let inpcols := inpcols_of treaty_df in
  let outcols := outcols_of treaty_df in
  let eids := np_unique (event_id rbp) in
  let idxs := (fun e => index_of e eids) <$> event_id rbp in
  let E := length eids in
  let keys := groupby_keys (policy_grp rbp) in
  datalist ← mapM (group_data E idxs rbp inpcols outcols) keys;
  mret (eids, keys, datalist).

(** [m.sum(axis=1)] for the matrix made of the columns [cols], with [E] rows. *)
Definition row_sum (cols : matrix) (E : nat) : list Q :=
  foldl vadd (np_zeros E) cols.

(** The left-hand side of the sanity check, [cession + ret]. *)
Definition reconciled (res : matrix) (ret : list Q) : list Q :=
  vadd (row_sum (drop 2 res) (length ret)) ret.

Definition _by_event (depth : nat) (rbp : policy_loss_table)
    (treaty_df : list treaty) : result event_loss_table :=
  '(eids, keys, datalist) ← policy_loss_matrices rbp treaty_df;
  let outcols := outcols_of treaty_df in
  let idx := enumerate_dict outcols in
  '(res, overspill) ← clever_agg depth keys datalist treaty_df idx ∅;
  ret ← column res 0;
  claim ← column res 1;
  if allclose (reconciled res ret) claim then
    cols ← mapM (column res) (seq 0 (length outcols));
    let dic : gmap string (list Q) :=
      foldl (fun d '(col, v) => <[col := v]> d) ∅ (zip outcols cols) in
    let dic := overspill ∪ dic in
    let alias : gmap string string :=
      foldl (fun d t => <[code_key (code t) := id t]> d) ∅ treaty_df in
    mret {| out_event_id := eids;
            out_columns := kmap (fun k => default k (alias !! k)) dic |}
  else Raise AssertionError.

(** ** Quantities used to state the properties *)

(** The entry of row [e] in column [j]. *)
Definition cell (data : matrix) (j e : nat) : Q := nth e (nth j data []) 0.

(** The sum over the treaty columns (columns 2 and up) in row [e]. *)
Definition cessions_at (data : matrix) (e : nat) : Q :=
  foldr (fun col acc => nth e col 0 + acc) 0 (drop 2 data).

(** retention + cessions - claim in row [e]. *)
Definition mismatch (data : matrix) (e : nat) : Q :=
  cell data 0 e + cessions_at data e - cell data 1 e.

(** The sum of a quantity over the matrices of all groups. *)
Definition total (f : matrix -> Q) (datalist : list matrix) : Q :=
  foldr (fun data acc => f data + acc) 0 datalist.

(** Whether the policy stays out of the catastrophe treaty [tr]:
    [types[c] == 'catxl' and policy[col] == 0]. *)
Definition absent (policy : gmap string Q) (tr : treaty) : bool :=
  match type tr, policy !! id tr with
  | catxl, Some p => Qeq_bool p 0
  | _, _ => false
  end.

(** What a successful turn of the loop over the groups did to the matrix
    and to the overspill dictionary, for the leading symbol [c]. *)
Inductive group_step (tdf : list treaty) (idx : gmap string nat)
    (overdict : gmap string (list Q)) (data : matrix) (c : ascii)
  : matrix -> gmap string (list Q) -> Prop :=
| step_inert : c = "."%char -> group_step tdf idx overdict data c data overdict
| step_treaty tr jr jc ret cession overspill has_over cession' ret' :
    c <> "."%char ->
    loc tdf c = Ok [tr] ->
    idx !! "retention"%string = Some jr -> data !! jr = Some ret ->
    idx !! code_key c = Some jc -> data !! jc = Some cession ->
    treaty_branch tr cession ret = (overspill, has_over, (cession', ret')) ->
    group_step tdf idx overdict data c
      (<[jc := cession']> (<[jr := ret']> data))
      (if has_over
       then <["over_" +:+ code_key c := np_maximum0 overspill]> overdict
       else overdict).

(** A group whose turn records nothing under the code [c]. *)
Definition silent_for (tdf : list treaty) (idx : gmap string nat) (c : ascii)
    (group : string * matrix) : Prop :=
  forall newkey tr jr jc ret cession,
    group.1 = String c newkey -> loc tdf c = Ok [tr] ->
    idx !! "retention"%string = Some jr -> group.2 !! jr = Some ret ->
    idx !! code_key c = Some jc -> group.2 !! jc = Some cession ->
    (treaty_branch tr cession ret).1.2 = false.


(** The matrix has 2+T columns of E entries each. *)
Definition well_shaped (E T : nat) (data : matrix) : Prop :=
  length data = (2 + T)%nat /\ Forall (fun col => length col = E) data.

(** The key carries, for each of the treaties [trs] in order, either the
    sentinel or the code of the treaty. *)
Definition compatible (key : string) (trs : list treaty) : Prop :=
  Forall2 (fun sym tr => sym = "."%char \/ sym = code tr)
          (list_ascii_of_string key) trs.

(** The cession columns of the catastrophe treaties at the catalog positions
    [k] and up are still zero. *)
Definition catxl_zero_from (k : nat) (treaty_df : list treaty) (data : matrix)
  : Prop :=
  forall j tr e, (k <= j)%nat -> treaty_df !! j = Some tr -> type tr = catxl ->
    cell data (2 + j) e == 0.

(** The sum of row [e] over the columns [cols]. *)
Definition colsum (cols : matrix) (e : nat) : Q :=
  foldr (fun col acc => nth e col 0 + acc) 0 cols.

(** How a group leaves one level of the engine, for the treaty at the
    catalog position [k] and the treaties [rest] after it. *)
Definition level_step (E k : nat) (treaty_df rest : list treaty)
    (group new : string * matrix) : Prop :=
  (exists c, group.1 = String c new.1) /\
  compatible new.1 rest /\
  well_shaped E (length treaty_df) new.2 /\
  catxl_zero_from (S k) treaty_df new.2 /\
  forall e, (e < E)%nat ->
    mismatch new.2 e == mismatch group.2 e /\ cell new.2 1 e = cell group.2 1 e.

(** ** [check_fractions], source lines 61-77 *)

(** The inner loop over the columns for the row [i]: the total of the
    fractions of the row, [ValueError] at the first fraction outside [0, 1],
    [IndexError] when a column or an entry is not there. *)
Definition check_row (colnames : list string) (colvalues : list (list Q))
    (i : nat) : result Q :=
  foldlM (fun tot '(c, _) =>
            match colvalues !! c with
            | None => Raise IndexError
            | Some v =>
                match v !! i with
                | None => Raise IndexError
                | Some frac =>
                    if Qgtb frac 1 || Qgtb 0 frac then Raise ValueError
                    else Ok (tot + frac)
                end
            end)
         0 (zip (seq 0 (length colnames)) colnames).

(** [check_fractions(colnames, colvalues, fname)]; the file name only serves
    the error messages. *)
Definition check_fractions (colnames : list string)
    (colvalues : list (list Q)) : result unit :=
  match colvalues with
  | [] => Raise IndexError
  | v0 :: _ =>
      foldlM (fun _ i =>
                tot ← check_row colnames colvalues i;
                if Qgtb tot 1 then Raise ValueError else Ok tt)
             tt (seq 0 (length v0))
  end.

(** The fractions of the row [i] of the policy file, column by column. *)
Definition fractions_row (colvalues : list (list Q)) (i : nat) : list Q :=
  (fun v => nth i v 0) <$> colvalues.

(** The row [i] passes the validation: every fraction lies in [0, 1] and
    their total is at most 1. *)
Definition valid_row (colvalues : list (list Q)) (i : nat) : Prop :=
  Forall (fun frac => 0 <= frac <= 1) (fractions_row colvalues i) /\
  Qsum (fractions_row colvalues i) <= 1.

(** The entry of row [i] in the column [k] of a dictionary of arrays. *)
Definition entry (out : gmap string (list Q)) (k : string) (i : nat) : Q :=
  nth i (default [] (out !! k)) 0.

(** The sum of row [i] over the columns of the treaties [trs]. *)
Definition ceded (out : gmap string (list Q)) (trs : list treaty) (i : nat)
  : Q :=
  foldr (fun tr acc => entry out (id tr) i + acc) 0 trs.

(** The dictionary [after] keeps every entry key of [before] and adds only
    keys "over_" + code for treaties of the catalog that are not per-policy
    excess-of-loss treaties. *)
Definition overspill_keys_grow (tdf : list treaty)
    (before after : gmap string (list Q)) : Prop :=
  forall k,
    (is_Some (before !! k) -> is_Some (after !! k)) /\
    (is_Some (after !! k) ->
     is_Some (before !! k) \/
     exists tr, tr ∈ tdf /\ type tr <> wxlr /\
                k = "over_" +:+ code_key (code tr)).

(** No catastrophe treaty is listed before a treaty of another type. *)
Definition aligned (treaty_df : list treaty) : Prop :=
  forall i j ti tj, (i < j)%nat ->
    treaty_df !! i = Some ti -> treaty_df !! j = Some tj ->
    type ti = catxl -> type tj = catxl.

(** The matrix has the shape (E, 2+T) and in each of its rows the retention
    is the claim minus the treaty columns. *)
Definition reconciled_matrix (E T : nat) (data : matrix) : Prop :=
  well_shaped E T data /\ forall e, (e < E)%nat -> mismatch data e == 0.

(** ** [by_policy] and [group_by_policies], source lines 248-279 *)

(** A row of [agglosses_df]: (agg_id, event_id, loss). *)
Record loss_row : Type := LossRow {
  row_agg_id : Z;
  row_event_id : Z;
  row_loss : Q
}.

(** The table returned by [by_policy]: the event ids, the policy ids, the
    numeric columns of [claim_to_cessions] and the policy group key that the
    frame carries in every row.  The treaty ids are taken to differ from
    'event_id', 'policy_id' and 'policy_grp', the three other columns. *)
Record policy_frame : Type := PolicyFrame {
  frame_event_id : list Z;
  frame_policy_id : list Z;
  frame_columns : gmap string (list Q);
  frame_policy_grp : string
}.

(** The entries of [v] at the positions where [mask] holds. *)
Definition mask_filter {A} (mask : list bool) (v : list A) : list A :=
  omap (fun '(b, x) => if b : bool then Some x else None) (zip mask v).

(** [v[mask]] for a boolean mask: [IndexError] when the lengths differ. *)
Definition mask_select {A} (mask : list bool) (v : list A)
  : result (list A) :=
  if decide (length mask = length v)
  then Ok (mask_filter mask v)
  else Raise IndexError.

(** The conversion of a number to [int]: truncation towards zero. *)
Definition Qtrunc (x : Q) : Z := Z.quot (Qnum x) (Z.pos (Qden x)).

(** [by_policy(agglosses_df, pol_dict, treaty_df)].  The function
    [scientific.insured_losses] is not among the sources and is a parameter. *)
Definition by_policy (insured_losses : list Q -> Q -> Q -> list Q)
    (agglosses_df : list loss_row) (pol_dict : gmap string Q)
    (treaty_df : list treaty) : result policy_frame :=
  policy ← getitem pol_dict "policy";
  let df :=
    filter (fun row => Qeq_bool (inject_Z (row_agg_id row)) (policy - 1) = true)
           agglosses_df in
  let losses := row_loss <$> df in
  ded ← getitem pol_dict "deductible";
  lim ← getitem pol_dict "liability";
  let claim := insured_losses losses ded lim in
  let event_ids := row_event_id <$> df in
  let policy_ids := replicate (length df) (Qtrunc policy) in
  out ← claim_to_cessions claim pol_dict treaty_df;
  claims ← getitem out "claim";
  let nonzero := (fun c => Qgtb c 0) <$> claims in
  event_ids' ← mask_select nonzero event_ids;
  policy_ids' ← mask_select nonzero policy_ids;
  if bool_decide (map_Forall (fun _ v => length v = length nonzero)
                             (out : gmap string (list Q)))
  then
    let cols := mask_filter nonzero <$> out in
    grp ← build_policy_grp pol_dict treaty_df;
    mret {| frame_event_id := event_ids';
            frame_policy_id := policy_ids';
            frame_columns := cols;
            frame_policy_grp := grp |}
  else Raise IndexError.

(** The numeric columns of a frame, 'policy_id' among them. *)
Definition frame_table (f : policy_frame) : gmap string (list Q) :=
  <["policy_id"%string := inject_Z <$> frame_policy_id f]> (frame_columns f).

(** [pd.concat(dfs)] for frames with the same columns: [ValueError] when there
    is no frame.  The result is the table [rbp]; its column 'policy_id' is
    kept among the numeric columns. *)
Definition pd_concat (dfs : list policy_frame) : result policy_loss_table :=
  match dfs with
  | [] => Raise ValueError
  | _ =>
      Ok {| event_id := dfs ≫= frame_event_id;
            policy_grp :=
              dfs ≫= (fun f => replicate (length (frame_event_id f))
                                         (frame_policy_grp f));
            columns :=
              foldl (fun acc f =>
                       union_with (fun a b => Some (a ++ b)) acc
                                  (frame_table f))
                    ∅ dfs |}
  end.

(** [group_by_policies(policy_dicts, sharedf, treaty_df, monitor)], with the
    unpacked table of losses in place of [sharedf]. *)
Definition group_by_policies (insured_losses : list Q -> Q -> Q -> list Q)
    (policy_dicts : list (gmap string Q)) (agglosses_df : list loss_row)
    (treaty_df : list treaty) : result policy_loss_table :=
  dfs ← mapM (fun pol => by_policy insured_losses agglosses_df pol treaty_df)
             policy_dicts;
  pd_concat dfs.

(** The names of the columns of [claim_to_cessions]: 'claim', 'retention' and
    the ids of the treaties that are not catastrophe treaties. *)
Definition cession_column (treaty_df : list treaty) (k : string) : Prop :=
  k = "claim"%string \/ k = "retention"%string \/
  exists tr, tr ∈ treaty_df /\ type tr <> catxl /\ id tr = k.

(** ** [check_fields], source lines 45-57 *)

(** The exceptions of [check_fields]: the built-in ones and [InvalidFile]
    with its message. *)
Inductive file_exn : Type :=
  | Builtin (e : exn)
  | InvalidFile (msg : string).

(** [check_fields(fields, dframe, idxdict, fname)].  The frame is the map of
    its columns; the cells are of a type [K] of hashable values.  The column
    of the primary key is overwritten with the indices, so the frame that
    results has columns of cells ([inl]) and one column of indices ([inr]). *)
Definition check_fields `{Countable K} (fields : list string)
    (dframe : gmap string (list K)) (idxdict : gmap K nat) (fname : string)
  : file_exn + gmap string (list K + list nat) :=
  match fields with
  | [] => inl (Builtin IndexError)
  | key :: _ =>
      match dframe !! key with
      | None => inl (Builtin KeyError)
      | Some names =>
          match mapM (fun name => idxdict !! name) names with
          | None => inl (Builtin KeyError)
          | Some idx =>
              let dframe' : gmap string (list K + list nat) :=
                <[key := inr idx]> (inl <$> dframe) in
              match list_find (fun field => dframe' !! field = None) fields with
              | Some (_, field) =>
                  inl (InvalidFile
                         (fname +:+ ": " +:+ field
                                +:+ " is missing in the header"))
              | None => inr dframe'
              end
          end
      end
  end.

(** * Properties *)

(** ** The treaty split *)

Lemma Qgtb_true (x y : Q) : Qgtb x y = true <-> y < x.
Proof.
  unfold Qgtb. rewrite negb_true_iff, <- not_true_iff_false, Qle_bool_iff.
  split; [apply Qnot_le_lt | apply Qlt_not_le].
Qed.

Lemma Qgtb_false (x y : Q) : Qgtb x y = false <-> x <= y.
Proof.
  unfold Qgtb. rewrite negb_false_iff. apply Qle_bool_iff.
Qed.

Ltac case_Qgtb :=
  match goal with
  | |- context [Qgtb ?x ?y] =>
      let H := fresh "Hcmp" in
      destruct (Qgtb x y) eqn:H;
      [apply Qgtb_true in H | apply Qgtb_false in H]
  end.

Lemma apply_treaty_lookup (cession retention : list Q) (deduc capacity : Q)
    (i : nat) (ces ret : Q) :
  cession !! i = Some ces -> retention !! i = Some ret ->
  (apply_treaty cession retention deduc capacity).1 !! i
    = Some (apply_treaty_at ces ret deduc capacity).1 /\
  (apply_treaty cession retention deduc capacity).2 !! i
    = Some (apply_treaty_at ces ret deduc capacity).2.
Proof.
  revert cession i.
  induction retention as [|r rs IH]; intros [|c cs] i Hc Hr;
    try (destruct i; discriminate).
  simpl. destruct (apply_treaty_at c r deduc capacity) as [c1 r1] eqn:E1.
  destruct (apply_treaty cs rs deduc capacity) as [cs1 rs1] eqn:E2.
  destruct i as [|i]; simpl in *.
  - inversion Hc; inversion Hr; subst. rewrite E1. auto.
  - specialize (IH cs i Hc Hr). rewrite E2 in IH. exact IH.
Qed.

Lemma apply_treaty_length (cession retention : list Q) (deduc capacity : Q) :
  length cession = length retention ->
  length (apply_treaty cession retention deduc capacity).1 = length retention /\
  length (apply_treaty cession retention deduc capacity).2 = length retention.
Proof.
  revert cession.
  induction retention as [|r rs IH]; intros [|c cs] Hlen; try discriminate.
  - auto.
  - simpl. destruct (apply_treaty_at c r deduc capacity) as [c1 r1].
    destruct (apply_treaty cs rs deduc capacity) as [cs1 rs1] eqn:E2.
    simpl in *. specialize (IH cs ltac:(lia)). rewrite E2 in IH. simpl in IH.
    lia.
Qed.

Lemma apply_treaty_at_conservation (ces ret deduc capacity : Q) :
  (apply_treaty_at ces ret deduc capacity).2
  + (apply_treaty_at ces ret deduc capacity).1 == ret + (if Qgtb ret deduc then 0 else ces).
Proof.
  unfold apply_treaty_at. repeat case_Qgtb; simpl; lra.
Qed.






(** ** A catastrophe treaty through the engine *)

(** C5, as amended.  One policy group, one catastrophe treaty with
    deductible 50 and limit 150 (capacity 100), one event whose retention
    enters the engine at 200: the engine returns retention 100, cession 100
    and claim 200, and records under "over_A" the overspill 50, the part of
    the retention above deductible plus capacity. *)
Theorem clever_agg_catxl_scenario :
  let cat := Treaty "cat1" catxl 50 150 "A" in
  let idx := enumerate_dict (outcols_of [cat]) in
  exists overdict : gmap string (list Q),
    clever_agg 2 ["A"%string] [[[200]; [200]; [0]]] [cat] idx ∅
      = Ok ([[100]; [200]; [100]], overdict) /\
    overdict !! "over_A"%string = Some [50].
Proof.
  simpl. eexists. split; [vm_compute; reflexivity|]. vm_compute. reflexivity.
Qed.

(** In that scenario the recorded overspill is not 0. *)
Lemma clever_agg_catxl_overspill_recorded :
  let cat := Treaty "cat1" catxl 50 150 "A" in
  let idx := enumerate_dict (outcols_of [cat]) in
  exists (res : matrix) (overdict : gmap string (list Q)) (over : Q),
    clever_agg 2 ["A"%string] [[[200]; [200]; [0]]] [cat] idx ∅
      = Ok (res, overdict) /\
    overdict !! "over_A"%string = Some [over] /\ ~ over == 0.
Proof.
  simpl. eexists _, _, _. split; [vm_compute; reflexivity|].
  split; [vm_compute; reflexivity|]. intros H; discriminate H.
Qed.

(** ** The fraction check of [claim_to_cessions] *)

Lemma getitem_Ok {V} (d : gmap string V) (k : string) (v : V) :
  getitem d k = Ok v <-> d !! k = Some v.
Proof.
  unfold getitem. destruct (d !! k); split; intros H; congruence.
Qed.

Lemma getitem_not_assertion {V} (d : gmap string V) (k : string) :
  getitem d k <> Raise AssertionError.
Proof. unfold getitem. destruct (d !! k); discriminate. Qed.

Lemma bind_not_assertion {A B} (m : result A) (f : A -> result B) :
  m <> Raise AssertionError -> (forall a, f a <> Raise AssertionError) ->
  m ≫= f <> Raise AssertionError.
Proof.
  intros Hm Hf. destruct m as [a|e]; simpl; [apply Hf|].
  intros H. apply Hm. congruence.
Qed.

Lemma wxlr_cession_not_assertion (claim : list Q) (policy : gmap string Q)
    (out : gmap string (list Q)) (tr : treaty) :
  wxlr_cession claim policy out tr <> Raise AssertionError.
Proof.
  unfold wxlr_cession.
  apply bind_not_assertion; [apply getitem_not_assertion|]. intros p.
  destruct (truthy p); [|discriminate].
  apply bind_not_assertion; [apply getitem_not_assertion|]. intros ces.
  apply bind_not_assertion; [apply getitem_not_assertion|]. intros ret.
  destruct (apply_treaty _ _ _ _). discriminate.
Qed.

Lemma foldlM_wxlr_not_assertion (claim : list Q) (policy : gmap string Q)
    (wxl : list treaty) (out : gmap string (list Q)) :
  foldlM (wxlr_cession claim policy) out wxl <> Raise AssertionError.
Proof.
  revert out. induction wxl as [|tr wxl IH]; intros out; simpl; [discriminate|].
  apply bind_not_assertion; [apply wxlr_cession_not_assertion | apply IH].
Qed.



(** ** The policy group key *)


Lemma policy_grp_loop_spec (policy : gmap string Q) (treaty_df : list treaty)
    (rest pre : list treaty) (key : list ascii) :
  treaty_df = pre ++ rest ->
  length key = length treaty_df ->
  (forall tr, tr ∈ rest -> type tr = catxl -> is_Some (policy !! id tr)) ->
  exists key',
    policy_grp_loop policy (type <$> treaty_df) (length pre) (id <$> rest) key
      = Ok key' /\
    length key' = length key /\
    forall j tr, treaty_df !! j = Some tr ->
      key' !! j =
        if decide (length pre <= j)%nat
        then (if absent policy tr then Some "."%char else key !! j)
        else key !! j.
Proof.
  revert pre key. induction rest as [|tr rest IH]; intros pre key Hdf Hlen Hin.
  - exists key. split; [reflexivity|]. split; [reflexivity|].
    intros j tr Hj. case_decide; [|reflexivity].
    apply lookup_lt_Some in Hj. rewrite Hdf, length_app in Hj. simpl in Hj. lia.
  - simpl.
    assert (Hty : (type <$> treaty_df) !! length pre = Some (type tr)).
    { rewrite list_lookup_fmap, Hdf, list_lookup_middle by reflexivity.
      reflexivity. }
    rewrite Hty.
    assert (Hstep : exists key1,
      match type tr with
      | catxl =>
          p ← getitem policy (id tr);
          mret (if Qeq_bool p 0 then <[length pre := "."%char]> key else key)
      | _ => mret key
      end = Ok key1 /\
      key1 = if absent policy tr then <[length pre := "."%char]> key else key).
    { unfold absent. destruct (type tr) eqn:Et;
        try (exists key; split; reflexivity).
      destruct (Hin tr) as [p Hp]; [left | exact Et |].
      unfold getitem. rewrite Hp. simpl. eexists. split; reflexivity. }
    destruct Hstep as (key1 & -> & Hkey1). simpl.
    destruct (IH (pre ++ [tr]) key1) as (key' & Hloop & Hlen' & Hsym).
    + rewrite <- app_assoc. exact Hdf.
    + rewrite Hkey1. destruct (absent policy tr);
        [rewrite length_insert|]; exact Hlen.
    + intros tr' Hin'. apply Hin. right. exact Hin'.
    + rewrite length_app in Hloop. simpl in Hloop.
      replace (length pre + 1)%nat with (S (length pre)) in Hloop by lia.
      exists key'. split; [exact Hloop|]. split.
      { rewrite Hlen', Hkey1. destruct (absent policy tr);
          [apply length_insert | reflexivity]. }
      intros j tr' Hj. rewrite (Hsym j tr' Hj), length_app. simpl.
      assert (Hc : (length pre < length key)%nat).
      { rewrite Hlen, Hdf, length_app. simpl. lia. }
      destruct (decide (j = length pre)) as [->|Hne].
      * rewrite Hdf, list_lookup_middle in Hj by reflexivity.
        inversion Hj; subst tr'.
        rewrite decide_False by lia. rewrite decide_True by lia.
        rewrite Hkey1. destruct (absent policy tr); [|reflexivity].
        apply list_lookup_insert_eq. exact Hc.
      * assert (Hk1 : key1 !! j = key !! j).
        { rewrite Hkey1. destruct (absent policy tr); [|reflexivity].
          apply list_lookup_insert_ne. congruence. }
        rewrite Hk1. repeat case_decide; try lia; reflexivity.
Qed.

Lemma get_string_of_list_ascii (l : list ascii) (c : nat) :
  String.get c (string_of_list_ascii l) = l !! c.
Proof.
  revert c. induction l as [|a l IH]; intros [|c]; simpl; auto.
Qed.

Lemma length_string_of_list_ascii (l : list ascii) :
  String.length (string_of_list_ascii l) = length l.
Proof. induction l; simpl; auto. Qed.

(** C9.  The policy group key: when the policy holds a value for every
    catastrophe treaty, [build_policy_grp] returns a string with exactly one
    symbol per treaty, in catalog order; the symbol is the code of the
    treaty, except at a catastrophe treaty for which the policy holds 0,
    where it is the sentinel ".". *)
Theorem build_policy_grp_symbols (policy : gmap string Q)
    (treaty_df : list treaty) :
  (forall tr, tr ∈ treaty_df -> type tr = catxl -> is_Some (policy !! id tr)) ->
  exists key : string,
    build_policy_grp policy treaty_df = Ok key /\
    String.length key = length treaty_df /\
    forall (c : nat) (tr : treaty), treaty_df !! c = Some tr ->
      (type tr <> catxl -> String.get c key = Some (code tr)) /\
      (forall p, type tr = catxl -> policy !! id tr = Some p ->
         (p == 0 -> String.get c key = Some "."%char) /\
         (~ p == 0 -> String.get c key = Some (code tr))).
Proof.
  intros Hin. unfold build_policy_grp.
  destruct (policy_grp_loop_spec policy treaty_df treaty_df [] (code <$> treaty_df))
    as (key & Hloop & Hlen & Hsym); auto using length_fmap.
  simpl in Hloop. rewrite Hloop. simpl.
  exists (string_of_list_ascii key). split; [reflexivity|].
  split; [rewrite length_string_of_list_ascii, Hlen; apply length_fmap|].
  intros c tr Hc. rewrite get_string_of_list_ascii, (Hsym c tr Hc).
  rewrite decide_True by (simpl; lia).
  assert (Hcode : (code <$> treaty_df) !! c = Some (code tr))
    by (rewrite list_lookup_fmap, Hc; reflexivity).
  unfold absent. split.
  - intros Hty. destruct (type tr); try congruence; exact Hcode.
  - intros p Hty Hp. rewrite Hty, Hp. split; intros Hz.
    + apply Qeq_bool_iff in Hz. rewrite Hz. reflexivity.
    + destruct (Qeq_bool p 0) eqn:E; [|exact Hcode].
      apply Qeq_bool_iff in E. contradiction.
Qed.

Lemma build_policy_grp_symbols_witness :
  exists key : string,
    build_policy_grp (<["cat1"%string := 0]> (<["cat2"%string := 1]> ∅))
      [Treaty "prop1" prop 0 1000 "A"; Treaty "cat1" catxl 50 150 "B";
       Treaty "cat2" catxl 10 20 "C"] = Ok key /\
    String.length key = 3%nat /\ key = "A.C"%string.
Proof.
  destruct (build_policy_grp_symbols
              (<["cat1"%string := 0]> (<["cat2"%string := 1]> ∅))
              [Treaty "prop1" prop 0 1000 "A"; Treaty "cat1" catxl 50 150 "B";
               Treaty "cat2" catxl 10 20 "C"]) as (key & Hk & Hlen & _).
  - intros tr Htr Hty.
    repeat (apply elem_of_cons in Htr as [->|Htr]);
      [discriminate Hty | vm_compute; eauto | vm_compute; eauto |
       by apply elem_of_nil in Htr].
  - exists key. split; [exact Hk|]. split; [exact Hlen|].
    vm_compute in Hk. congruence.
Defined.

(** ** One group at one level of the engine *)

Lemma bind_Ok {A B} (m : result A) (f : A -> result B) (b : B) :
  m ≫= f = Ok b <-> exists a, m = Ok a /\ f a = Ok b.
Proof.
  destruct m as [a|e]; simpl; split.
  - intros H. exists a. auto.
  - intros (a' & Ha & H). congruence.
  - discriminate.
  - intros (a' & Ha & H). discriminate.
Qed.

Lemma column_Ok (data : matrix) (j : nat) (v : list Q) :
  column data j = Ok v <-> data !! j = Some v.
Proof. unfold column. destruct (data !! j); split; congruence. Qed.

Lemma agg_group_Ok (tdf : list treaty) (idx : gmap string nat)
    (overdict : gmap string (list Q)) (key : string) (data : matrix)
    (newkey : string) (data' : matrix) (overdict' : gmap string (list Q)) :
  agg_group tdf idx overdict key data = Ok (newkey, data', overdict') <->
  exists c, key = String c newkey /\ group_step tdf idx overdict data c data' overdict'.
Proof.
  unfold agg_group. split.
  - destruct key as [|c nk]; [discriminate|].
    destruct (decide (c = "."%char)) as [Hc|Hc].
    + intros H. inversion H; subst. exists "."%char. split; [reflexivity|].
      by constructor.
    + intros H.
      apply bind_Ok in H as (trs & Hloc & H).
      apply bind_Ok in H as (jr & Hjr & H). apply getitem_Ok in Hjr.
      apply bind_Ok in H as (ret & Hret & H). apply column_Ok in Hret.
      apply bind_Ok in H as (jc & Hjc & H). apply getitem_Ok in Hjc.
      apply bind_Ok in H as (cession & Hces & H). apply column_Ok in Hces.
      destruct trs as [|tr [|]]; try discriminate.
      destruct (treaty_branch tr cession ret) as [[overspill has_over] [ces' ret']] eqn:Hb.
      inversion H; subst. exists c. split; [reflexivity|].
      eapply step_treaty; eauto.
  - intros (c & -> & Hstep). destruct Hstep as [Hc | tr jr jc ret cession overspill has_over ces' ret' Hc Hloc Hjr Hret Hjc Hces Hb].
    + rewrite decide_True by exact Hc. reflexivity.
    + rewrite decide_False by exact Hc. rewrite Hloc. simpl.
      apply getitem_Ok in Hjr, Hjc. apply column_Ok in Hret, Hces.
      rewrite Hjr. simpl. rewrite Hret. simpl. rewrite Hjc. simpl.
      rewrite Hces. simpl. rewrite Hb. reflexivity.
Qed.

Lemma any_positive_false (v : list Q) (i : nat) (x : Q) :
  any_positive v = false -> v !! i = Some x -> Qgtb x 0 = false.
Proof.
  intros Hany Hi. destruct (Qgtb x 0) eqn:E; [|reflexivity].
  assert (any_positive v = true); [|congruence].
  apply existsb_exists. exists x. split; [|exact E].
  apply list_elem_of_In. eapply list_elem_of_lookup_2; eauto.
Qed.

Lemma prop_branch_lookup (tr : treaty) (cession ret : list Q) (i : nat)
    (r ces : Q) :
  ret !! i = Some r -> cession !! i = Some ces ->
  (prop_branch tr cession ret).2.1 !! i
    = Some (if Qgtb (ces - (limit tr - deductible tr)) 0
            then limit tr else ces) /\
  (prop_branch tr cession ret).2.2 !! i
    = Some (if Qgtb (ces - (limit tr - deductible tr)) 0
            then r + (ces - limit tr) else r).
Proof.
  intros Hr Hc. unfold prop_branch.
  destruct (any_positive _) eqn:Hany; cbn [fst snd].
  - rewrite !lookup_zip_with, !list_lookup_fmap, Hr, Hc.
    simpl. auto.
  - rewrite (any_positive_false _ i (ces - (limit tr - deductible tr)) Hany).
    + auto.
    + rewrite list_lookup_fmap, Hc. reflexivity.
Qed.

Lemma cell_lookup (data : matrix) (j e : nat) (v : list Q) (x : Q) :
  data !! j = Some v -> v !! e = Some x -> cell data j e = x.
Proof.
  intros Hj He. unfold cell. rewrite (nth_lookup_Some _ _ _ _ Hj).
  apply nth_lookup_Some. exact He.
Qed.

Lemma cell_insert_eq (data : matrix) (j e : nat) (v : list Q) :
  (j < length data)%nat -> cell (<[j := v]> data) j e = nth e v 0.
Proof.
  intros Hj. unfold cell.
  rewrite (nth_lookup_Some _ _ _ v); [reflexivity|].
  apply list_lookup_insert_eq. exact Hj.
Qed.

Lemma cell_insert_ne (data : matrix) (j j' e : nat) (v : list Q) :
  j <> j' -> cell (<[j := v]> data) j' e = cell data j' e.
Proof.
  intros Hj. unfold cell. rewrite !nth_lookup, list_lookup_insert_ne by exact Hj.
  reflexivity.
Qed.




(** ** The overspill dictionary along the loop over the groups *)

Lemma agg_loop_cons (tdf : list treaty) (idx : gmap string nat)
    (key : string) (data : matrix) (groups : list (string * matrix))
    (overdict : gmap string (list Q)) news overdict' :
  agg_loop tdf idx ((key, data) :: groups) overdict = Ok (news, overdict') <->
  exists newkey data' od1 news1,
    agg_group tdf idx overdict key data = Ok (newkey, data', od1) /\
    agg_loop tdf idx groups od1 = Ok (news1, overdict') /\
    news = (newkey, data') :: news1.
Proof.
  simpl. rewrite bind_Ok. split.
  - intros ([[nk d'] od1] & Hg & H). apply bind_Ok in H as ([n1 od2] & Hl & H).
    inversion H; subst. eauto 10.
  - intros (nk & d' & od1 & n1 & Hg & Hl & ->).
    exists (nk, d', od1). split; [exact Hg|]. rewrite Hl. reflexivity.
Qed.

Lemma agg_loop_app (tdf : list treaty) (idx : gmap string nat)
    (before after : list (string * matrix))
    (overdict : gmap string (list Q)) news overdict' :
  agg_loop tdf idx (before ++ after) overdict = Ok (news, overdict') ->
  exists news1 od1 news2,
    agg_loop tdf idx before overdict = Ok (news1, od1) /\
    agg_loop tdf idx after od1 = Ok (news2, overdict') /\
    news = news1 ++ news2.
Proof.
  revert overdict news.
  induction before as [|[key data] before IH]; intros overdict news H.
  - exists [], overdict, news. auto.
  - rewrite <- app_comm_cons in H.
    apply agg_loop_cons in H as (nk & d' & od1 & n1 & Hg & Hl & ->).
    apply IH in Hl as (news1 & od2 & news2 & Hb & Ha & ->).
    exists ((nk, d') :: news1), od2, news2. split; [|auto].
    apply agg_loop_cons. eauto 10.
Qed.

Lemma over_key_inj (c c' : ascii) :
  "over_" +:+ code_key c = "over_" +:+ code_key c' -> c = c'.
Proof. intros H. apply String.app_inj in H. inversion H. reflexivity. Qed.

Lemma agg_loop_silent (tdf : list treaty) (idx : gmap string nat) (c : ascii)
    (groups : list (string * matrix)) (overdict : gmap string (list Q))
    news overdict' :
  agg_loop tdf idx groups overdict = Ok (news, overdict') ->
  Forall (silent_for tdf idx c) groups ->
  overdict' !! ("over_" +:+ code_key c) = overdict !! ("over_" +:+ code_key c).
Proof.
  revert overdict news.
  induction groups as [|[key data] groups IH]; intros overdict news H Hs.
  - inversion H. reflexivity.
  - apply agg_loop_cons in H as (nk & d' & od1 & n1 & Hg & Hl & ->).
    inversion Hs as [|? ? Hs1 Hs2]; subst.
    rewrite (IH _ _ Hl Hs2).
    apply agg_group_Ok in Hg as (c' & -> & Hstep).
    destruct Hstep as [Hc | tr jr jc ret cession overspill has_over ces' ret'
                            Hc Hloc Hjr Hret Hjc Hces Hb]; [reflexivity|].
    destruct has_over; [|reflexivity].
    destruct (decide (c' = c)) as [->|Hne].
    + specialize (Hs1 nk tr jr jc ret cession eq_refl Hloc Hjr Hret Hjc Hces).
      rewrite Hb in Hs1. discriminate Hs1.
    + apply lookup_insert_ne. intros Heq. apply over_key_inj in Heq. congruence.
Qed.

(** C4, as amended.  The overspill dictionary at one level: a group whose
    leading code is [c] and which has an excess stores the positive part of
    its overspill under "over_" + c, replacing what was there; after the
    loop the entry is the one of the last group with that code and an
    excess (the groups after it record nothing under that key).  Earlier
    groups are overwritten, not merged. *)
Theorem agg_loop_overspill_last (tdf : list treaty) (idx : gmap string nat)
    (before after : list (string * matrix)) (c : ascii) (newkey : string)
    (data : matrix) (overdict : gmap string (list Q))
    (news : list (string * matrix)) (overdict' : gmap string (list Q))
    (tr : treaty) (jr jc : nat) (ret cession overspill : list Q)
    (updated : list Q * list Q) :
  agg_loop tdf idx (before ++ (String c newkey, data) :: after) overdict
    = Ok (news, overdict') ->
  c <> "."%char -> loc tdf c = Ok [tr] ->
  idx !! "retention"%string = Some jr -> data !! jr = Some ret ->
  idx !! code_key c = Some jc -> data !! jc = Some cession ->
  treaty_branch tr cession ret = (overspill, true, updated) ->
  Forall (silent_for tdf idx c) after ->
  overdict' !! ("over_" +:+ code_key c) = Some (np_maximum0 overspill).
Proof.
  intros H Hc Hloc Hjr Hret Hjc Hces Hb Hafter.
  apply agg_loop_app in H as (news1 & od1 & news2 & _ & H & _).
  apply agg_loop_cons in H as (nk & d' & od2 & n1 & Hg & Hl & _).
  rewrite (agg_loop_silent _ _ _ _ _ _ _ Hl Hafter).
  apply agg_group_Ok in Hg as (c' & Hkey & Hstep). inversion Hkey; subst c' nk.
  destruct Hstep as [Hdot | tr' jr' jc' ret' cession' overspill' has_over ces'' ret''
                          _ Hloc' Hjr' Hret' Hjc' Hces' Hb']; [contradiction|].
  assert (tr' = tr) by congruence. assert (jr' = jr) by congruence.
  assert (jc' = jc) by congruence. subst tr' jr' jc'.
  assert (ret' = ret) by congruence.
  assert (cession' = cession) by congruence. subst ret' cession'.
  rewrite Hb in Hb'. inversion Hb'; subst. apply lookup_insert_eq.
Qed.

Lemma agg_loop_overspill_last_witness :
  let tdf := [Treaty "prop1" prop 0 10 "A"; Treaty "cat1" catxl 50 150 "B"] in
  let idx := enumerate_dict (outcols_of tdf) in
  let groups : list (string * matrix) :=
    [("A."%string, [[85; 90]; [100; 100]; [15; 10]; [0; 0]]);
     ("AB"%string, [[88; 84]; [100; 100]; [12; 16]; [0; 0]])] in
  exists news overdict',
    agg_loop tdf idx groups ∅ = Ok (news, overdict') /\
    overdict' !! "over_A"%string = Some (np_maximum0 [2; 6]).
Proof.
  intros tdf idx groups.
  destruct (agg_loop tdf idx groups ∅) as [[news overdict']|e] eqn:H;
    [|vm_compute in H; discriminate H].
  exists news, overdict'. split; [reflexivity|].
  apply (agg_loop_overspill_last tdf idx
           [("A."%string, [[85; 90]; [100; 100]; [15; 10]; [0; 0]])] []
           "A" "B" [[88; 84]; [100; 100]; [12; 16]; [0; 0]] ∅ news overdict'
           (Treaty "prop1" prop 0 10 "A") 0 2 [88; 84] [12; 16] [2; 6]
           ([10; 10], [90; 90]));
    try reflexivity; try discriminate; try exact H.
  constructor.
Defined.

(** Two groups with the leading code A and the overspills [5, 0] and [2, 6]:
    the dictionary ends with [2, 6], which is not their element-wise
    maximum. *)
Lemma agg_loop_overspill_not_maximum :
  let tdf := [Treaty "prop1" prop 0 10 "A"; Treaty "cat1" catxl 50 150 "B"] in
  let idx := enumerate_dict (outcols_of tdf) in
  let data1 : matrix := [[85; 90]; [100; 100]; [15; 10]; [0; 0]] in
  let data2 : matrix := [[88; 84]; [100; 100]; [12; 16]; [0; 0]] in
  exists news overdict',
    agg_loop tdf idx [("A."%string, data1); ("AB"%string, data2)] ∅
      = Ok (news, overdict') /\
    (treaty_branch (Treaty "prop1" prop 0 10 "A") [15; 10] [85; 90]).1
      = ([5; 0], true) /\
    (treaty_branch (Treaty "prop1" prop 0 10 "A") [12; 16] [88; 84]).1
      = ([2; 6], true) /\
    overdict' !! "over_A"%string = Some [2; 6] /\
    ~ Forall2 Qeq [2; 6] (zip_with Qmax [5; 0] [2; 6]).
Proof.
  simpl. eexists _, _. split; [vm_compute; reflexivity|].
  repeat split; try (vm_compute; reflexivity).
  intros H. apply Forall2_cons_1 in H as [H _]. vm_compute in H.
  discriminate H.
Qed.

(** ** Rounding to six decimals *)



(** ** Sums *)




(** ** The cessions of one policy *)

Lemma mapM_getitem_Ok {V} (d : gmap string V) (cols : list string)
    (vs : list V) :
  mapM (getitem d) cols = Ok vs <-> Forall2 (fun c v => d !! c = Some v) cols vs.
Proof.
  revert vs. induction cols as [|c cols IH]; intros vs; simpl.
  - split; [intros H; inversion H; constructor|].
    intros H; inversion H; reflexivity.
  - rewrite bind_Ok. split.
    + intros (v & Hv & H). apply bind_Ok in H as (vs' & Hvs & H).
      inversion H; subst. constructor; [by apply getitem_Ok | by apply IH].
    + intros H. inversion H as [|? v ? vs' Hv Hvs]; subst.
      exists v. split; [by apply getitem_Ok|].
      apply IH in Hvs. rewrite Hvs. reflexivity.
Qed.

Section InsertColumns.
Context {V W : Type} (g : W -> V).



End InsertColumns.










(** ** The sanity check of [_by_event] *)

Lemma allclose_true (actual desired : list Q) :
  allclose actual desired = true <->
  forall e a d, actual !! e = Some a -> desired !! e = Some d ->
    Qabs (a - d) <= rtol * Qabs d.
Proof.
  unfold allclose. rewrite forallb_forall. split.
  - intros H e a d Ha Hd. apply Qle_bool_iff.
    apply (H (a, d)). apply list_elem_of_In.
    apply list_elem_of_lookup. exists e.
    rewrite lookup_zip_with, Ha, Hd. reflexivity.
  - intros H [a d] Hin. apply list_elem_of_In, list_elem_of_lookup in Hin as [e He].
    rewrite lookup_zip_with in He.
    destruct (actual !! e) as [a'|] eqn:Ha; [|discriminate].
    destruct (desired !! e) as [d'|] eqn:Hd; [|discriminate].
    simpl in He. inversion He; subst. apply Qle_bool_iff. eauto.
Qed.

Lemma vadd_lookup (a b : list Q) (e : nat) (x y : Q) :
  a !! e = Some x -> b !! e = Some y -> vadd a b !! e = Some (x + y).
Proof.
  intros Ha Hb. unfold vadd. rewrite lookup_zip_with, Ha, Hb. reflexivity.
Qed.

Lemma vadd_length (a b : list Q) :
  length a = length b -> length (vadd a b) = length a.
Proof. intros H. unfold vadd. rewrite length_zip_with. lia. Qed.

Lemma foldl_vadd_lookup (cols : matrix) (acc : list Q) (e : nat) (a : Q) :
  Forall (fun col => length col = length acc) cols -> acc !! e = Some a ->
  exists x, foldl vadd acc cols !! e = Some x /\
            x == a + foldr (fun col s => nth e col 0 + s) 0 cols.
Proof.
  revert acc a. induction cols as [|c cols IH]; intros acc a Hlen Ha; simpl.
  - exists a. split; [exact Ha | lra].
  - inversion Hlen as [|? ? Hc Hcols]; subst.
    assert (He : (e < length c)%nat).
    { rewrite Hc. eapply lookup_lt_Some; eauto. }
    destruct (lookup_lt_is_Some_2 _ _ He) as [ce Hce].
    destruct (IH (vadd acc c) (a + ce)) as (x & Hx & Hxe).
    + rewrite vadd_length by congruence. exact Hcols.
    + by apply vadd_lookup.
    + exists x. split; [exact Hx|].
      rewrite (nth_lookup_Some _ _ _ _ Hce). lra.
Qed.

Lemma reconciled_lookup (res : matrix) (ret : list Q) (e : nat) :
  res !! 0%nat = Some ret ->
  Forall (fun col => length col = length ret) res ->
  (e < length ret)%nat ->
  exists a, reconciled res ret !! e = Some a /\
            a == cessions_at res e + cell res 0 e.
Proof.
  intros Hret Hshape He.
  destruct (lookup_lt_is_Some_2 _ _ He) as [r Hr].
  destruct (foldl_vadd_lookup (drop 2 res) (np_zeros (length ret)) e 0)
    as (x & Hx & Hxe).
  - unfold np_zeros. rewrite length_replicate. by apply Forall_drop.
  - apply lookup_replicate_2. exact He.
  - exists (x + r). split.
    + unfold reconciled, row_sum. by apply vadd_lookup.
    + unfold cessions_at. rewrite (cell_lookup res 0 e ret r Hret Hr). lra.
Qed.




(** ** The column index and the catalog lookup *)

Lemma enumerate_from_other (cols : list string) (s : nat)
    (d : gmap string nat) (k : string) :
  k ∉ cols ->
  foldl (fun d '(i, col) => <[col := i]> d) d (zip (seq s (length cols)) cols)
    !! k = d !! k.
Proof.
  revert s d. induction cols as [|c cols IH]; intros s d Hk; [reflexivity|].
  apply not_elem_of_cons in Hk as [Hne Hk]. simpl.
  rewrite IH by exact Hk. apply lookup_insert_ne. congruence.
Qed.

Lemma enumerate_from_lookup (cols : list string) (s : nat)
    (d : gmap string nat) (i : nat) (col : string) :
  NoDup cols -> cols !! i = Some col ->
  foldl (fun d '(i, col) => <[col := i]> d) d (zip (seq s (length cols)) cols)
    !! col = Some (s + i)%nat.
Proof.
  revert s d i. induction cols as [|c cols IH]; intros s d i Hnd Hi;
    [destruct i; discriminate|].
  apply NoDup_cons in Hnd as [Hc Hnd]. simpl. destruct i as [|i]; simpl in Hi.
  - inversion Hi; subst. rewrite enumerate_from_other by exact Hc.
    rewrite lookup_insert_eq. f_equal. lia.
  - rewrite (IH (S s) _ i Hnd Hi). f_equal. lia.
Qed.

Lemma enumerate_dict_lookup (cols : list string) (i : nat) (col : string) :
  NoDup cols -> cols !! i = Some col -> enumerate_dict cols !! col = Some i.
Proof. intros Hnd Hi. apply (enumerate_from_lookup cols 0 ∅ i col Hnd Hi). Qed.

Lemma NoDup_outcols (treaty_df : list treaty) :
  NoDup (code <$> treaty_df) -> NoDup (outcols_of treaty_df).
Proof.
  intros Hnd. unfold outcols_of. simpl.
  assert (Hkeys : forall s : string, (String.length s > 1)%nat ->
            s ∉ code_key ∘ code <$> treaty_df).
  { intros s Hs Hin. apply list_elem_of_fmap in Hin as (tr & -> & _).
    simpl in Hs. lia. }
  apply NoDup_cons. split.
  - apply not_elem_of_cons. split; [discriminate|]. apply Hkeys. simpl. lia.
  - apply NoDup_cons. split; [apply Hkeys; simpl; lia|].
    rewrite list_fmap_compose. apply NoDup_fmap_2; [|exact Hnd].
    intros c c' H. inversion H. reflexivity.
Qed.

Lemma idx_retention (treaty_df : list treaty) :
  NoDup (code <$> treaty_df) ->
  enumerate_dict (outcols_of treaty_df) !! "retention"%string = Some 0%nat.
Proof.
  intros Hnd. apply enumerate_dict_lookup; [by apply NoDup_outcols|reflexivity].
Qed.

Lemma idx_code (treaty_df : list treaty) (j : nat) (tr : treaty) :
  NoDup (code <$> treaty_df) -> treaty_df !! j = Some tr ->
  enumerate_dict (outcols_of treaty_df) !! code_key (code tr) = Some (2 + j)%nat.
Proof.
  intros Hnd Hj. apply enumerate_dict_lookup; [by apply NoDup_outcols|].
  unfold outcols_of. simpl. rewrite list_lookup_fmap, Hj. reflexivity.
Qed.

Lemma filter_code_nil (l : list treaty) (c : ascii) :
  c ∉ code <$> l -> filter (fun t => code t = c) l = [].
Proof.
  induction l as [|t l IH]; intros Hc; [reflexivity|].
  rewrite fmap_cons in Hc. apply not_elem_of_cons in Hc as [Hne Hc].
  rewrite filter_cons, decide_False by congruence. auto.
Qed.

Lemma loc_unique (treaty_df : list treaty) (tr : treaty) :
  NoDup (code <$> treaty_df) -> tr ∈ treaty_df ->
  loc treaty_df (code tr) = Ok [tr].
Proof.
  intros Hnd Hin. unfold loc.
  assert (Hf : filter (fun t => code t = code tr) treaty_df = [tr]);
    [|rewrite Hf; reflexivity].
  induction treaty_df as [|t l IH]; [by apply elem_of_nil in Hin|].
  rewrite fmap_cons in Hnd. apply NoDup_cons in Hnd as [Ht Hnd].
  rewrite filter_cons. destruct (decide (code t = code tr)) as [Heq|Hne].
  - apply elem_of_cons in Hin as [->|Hin].
    + rewrite filter_code_nil by exact Ht. reflexivity.
    + exfalso. apply Ht. rewrite Heq. by apply list_elem_of_fmap_2.
  - apply elem_of_cons in Hin as [->|Hin]; [congruence|]. auto.
Qed.

(** ** Conservation in one turn of the loop over the groups *)

Lemma colsum_insert (cols : matrix) (j : nat) (old new : list Q) (e : nat) :
  cols !! j = Some old ->
  colsum (<[j := new]> cols) e == colsum cols e - nth e old 0 + nth e new 0.
Proof.
  revert j. induction cols as [|c cols IH]; intros [|j] Hj; try discriminate;
    simpl in *.
  - inversion Hj; subst. lra.
  - rewrite (IH j Hj). lra.
Qed.

Lemma prop_branch_length (tr : treaty) (cession ret : list Q) :
  length cession = length ret ->
  length (prop_branch tr cession ret).2.1 = length ret /\
  length (prop_branch tr cession ret).2.2 = length ret.
Proof.
  intros Hlen. unfold prop_branch. destruct (any_positive _); cbn [fst snd].
  - rewrite !length_zip_with, !length_fmap. lia.
  - auto.
Qed.

Lemma treaty_branch_conserves (tr : treaty) (cession ret : list Q)
    (overspill : list Q) (has_over : bool) (cession' ret' : list Q) :
  treaty_branch tr cession ret = (overspill, has_over, (cession', ret')) ->
  length cession = length ret ->
  length cession' = length ret /\ length ret' = length ret /\
  forall e r c, ret !! e = Some r -> cession !! e = Some c ->
    (type tr = catxl -> c == 0) ->
    exists r' c', ret' !! e = Some r' /\ cession' !! e = Some c' /\
                  r' + c' == r + c.
Proof.
  unfold treaty_branch. intros Hb Hlen. destruct (type tr) eqn:Hty.
  - destruct (prop_branch_length tr cession ret Hlen) as [Hl1 Hl2].
    rewrite Hb in Hl1, Hl2. simpl in Hl1, Hl2. split; [exact Hl1|]. split; [exact Hl2|].
    intros e r c Hr Hc _.
    destruct (prop_branch_lookup tr cession ret e r c Hr Hc) as [Hc' Hr'].
    rewrite Hb in Hc', Hr'. simpl in Hc', Hr'.
    eexists _, _. split; [exact Hr'|]. split; [exact Hc'|].
    destruct (Qgtb _ 0); lra.
  - inversion Hb; subst. split; [exact Hlen|]. split; [reflexivity|].
    intros e r c Hr Hc _. exists r, c. split; [exact Hr|]. split; [exact Hc|]. lra.
  - unfold catxl_branch in Hb. inversion Hb as [[Ho Hh Ha]].
    destruct (apply_treaty_length cession ret (deductible tr)
                (limit tr - deductible tr) Hlen) as [Hl1 Hl2].
    rewrite Ha in Hl1, Hl2. simpl in Hl1, Hl2. split; [exact Hl1|]. split; [exact Hl2|].
    intros e r c Hr Hc Hz.
    destruct (apply_treaty_lookup _ _ (deductible tr)
                (limit tr - deductible tr) _ _ _ Hc Hr) as [Hc' Hr'].
    rewrite Ha in Hc', Hr'. simpl in Hc', Hr'.
    eexists _, _. split; [exact Hr'|]. split; [exact Hc'|].
    rewrite apply_treaty_at_conservation. specialize (Hz eq_refl).
    destruct (Qgtb r (deductible tr)); lra.
Qed.

Lemma cessions_at_colsum (data : matrix) (e : nat) :
  cessions_at data e = colsum (drop 2 data) e.
Proof. reflexivity. Qed.

Lemma agg_group_conserves (E : nat) (treaty_df pre rest : list treaty)
    (tr : treaty) (overdict : gmap string (list Q)) (c : ascii)
    (newkey : string) (data : matrix) :
  treaty_df = pre ++ tr :: rest ->
  NoDup (code <$> treaty_df) ->
  well_shaped E (length treaty_df) data ->
  catxl_zero_from (length pre) treaty_df data ->
  c = "."%char \/ c = code tr ->
  exists data' overdict',
    agg_group treaty_df (enumerate_dict (outcols_of treaty_df)) overdict
              (String c newkey) data = Ok (newkey, data', overdict') /\
    well_shaped E (length treaty_df) data' /\
    catxl_zero_from (S (length pre)) treaty_df data' /\
    forall e, (e < E)%nat ->
      mismatch data' e == mismatch data e /\ cell data' 1 e = cell data 1 e.
Proof.
  intros Hdf Hnd [Hlen Hcols] Hzero Hsym. unfold catxl_zero_from in *.
  destruct (decide (c = "."%char)) as [Hdot|Hdot].
  { exists data, overdict. split.
    - apply agg_group_Ok. exists c. split; [reflexivity|]. by constructor.
    - split; [by split|]. split.
      + intros j t e Hj. apply (Hzero j t e). lia.
      + intros e _. split; reflexivity. }
  destruct Hsym as [? | ->]; [contradiction|].
  assert (Htr : treaty_df !! length pre = Some tr).
  { rewrite Hdf. by apply list_lookup_middle. }
  assert (Hin : tr ∈ treaty_df) by (eapply list_elem_of_lookup_2; eauto).
  assert (Hj : (length pre < length treaty_df)%nat)
    by (eapply lookup_lt_Some; eauto).
  destruct (lookup_lt_is_Some_2 data 0) as [ret Hret]; [lia|].
  destruct (lookup_lt_is_Some_2 data (2 + length pre)) as [cession Hces]; [lia|].
  assert (Hlr : length ret = E)
    by (eapply (proj1 (Forall_lookup _ _) Hcols); eauto).
  assert (Hlc : length cession = E)
    by (eapply (proj1 (Forall_lookup _ _) Hcols); eauto).
  destruct (treaty_branch tr cession ret)
    as [[overspill has_over] [ces' ret']] eqn:Hb.
  destruct (treaty_branch_conserves tr cession ret _ _ _ _ Hb)
    as (Hlc' & Hlr' & Hcons); [congruence|].
  eexists _, _. split.
  { apply agg_group_Ok. eexists. split; [reflexivity|].
    eapply step_treaty; eauto using loc_unique, idx_retention, idx_code. }
  split; [|split].
  - split; [by rewrite !length_insert|].
    apply Forall_insert; [apply Forall_insert|]; [exact Hcols| |]; congruence.
  - intros j t e Hjk Ht Hty.
    rewrite !cell_insert_ne by lia.
    apply (Hzero j t e); [lia|exact Ht|exact Hty].
  - intros e He. split; [|rewrite !cell_insert_ne by lia; reflexivity].
    destruct (lookup_lt_is_Some_2 ret e) as [r Hr]; [lia|].
    destruct (lookup_lt_is_Some_2 cession e) as [x Hx]; [lia|].
    destruct (Hcons e r x Hr Hx) as (r' & x' & Hr' & Hx' & Heq).
    { intros Hty. rewrite <- (cell_lookup data _ e cession x Hces Hx).
      apply (Hzero (length pre) tr e); auto. }
    unfold mismatch. rewrite !cessions_at_colsum.
    rewrite drop_insert_ge by lia. rewrite drop_insert_lt by lia.
    rewrite (colsum_insert (drop 2 data) _ cession).
    2:{ rewrite lookup_drop, <- Hces. f_equal. lia. }
    rewrite !(cell_insert_ne _ _ 1%nat) by lia.
    rewrite cell_insert_ne, cell_insert_eq by lia.
    rewrite (cell_lookup data 0 e ret r Hret Hr).
    rewrite (nth_lookup_Some _ _ _ _ Hr'), (nth_lookup_Some _ _ _ _ Hx').
    rewrite (nth_lookup_Some _ _ _ _ Hx). lra.
Qed.

(** ** The loop over the groups *)

Lemma compatible_cons (key : string) (tr : treaty) (rest : list treaty) :
  compatible key (tr :: rest) ->
  exists c newkey, key = String c newkey /\
    (c = "."%char \/ c = code tr) /\ compatible newkey rest.
Proof.
  unfold compatible. destruct key as [|c newkey]; simpl; intros H;
    inversion H; subst. eauto.
Qed.

Lemma compatible_nil (key : string) : compatible key [] -> key = ""%string.
Proof.
  unfold compatible. destruct key; [reflexivity|]. simpl. intros H.
  inversion H.
Qed.

Lemma agg_loop_conserves (E : nat) (treaty_df pre rest : list treaty)
    (tr : treaty) (groups : list (string * matrix))
    (overdict : gmap string (list Q)) :
  treaty_df = pre ++ tr :: rest ->
  NoDup (code <$> treaty_df) ->
  Forall (fun g => compatible g.1 (tr :: rest) /\
                   well_shaped E (length treaty_df) g.2 /\
                   catxl_zero_from (length pre) treaty_df g.2) groups ->
  exists news overdict',
    agg_loop treaty_df (enumerate_dict (outcols_of treaty_df)) groups overdict
      = Ok (news, overdict') /\
    Forall2 (level_step E (length pre) treaty_df rest) groups news.
Proof.
  intros Hdf Hnd. revert overdict.
  induction groups as [|[key data] groups IH]; intros overdict Hall.
  - exists [], overdict. split; [reflexivity|constructor].
  - inversion Hall as [|? ? (Hcompat & Hshape & Hzero) Hrest]; subst.
    simpl in Hcompat, Hshape, Hzero.
    apply compatible_cons in Hcompat as (c & nk & -> & Hsym & Hnk).
    destruct (agg_group_conserves E _ pre rest tr overdict c nk data
                eq_refl Hnd Hshape Hzero Hsym)
      as (data' & od1 & Hg & Hshape' & Hzero' & Hcons).
    destruct (IH od1 Hrest) as (news & od' & Hloop & Hsteps).
    exists ((nk, data') :: news), od'. split.
    + apply agg_loop_cons. eauto 10.
    + constructor; [|exact Hsteps]. unfold level_step. simpl. eauto 10.
Qed.

Lemma level_step_total (E k : nat) (treaty_df rest : list treaty)
    (groups news : list (string * matrix)) (e : nat) :
  Forall2 (level_step E k treaty_df rest) groups news -> (e < E)%nat ->
  total (fun d => mismatch d e) (news.*2)
    == total (fun d => mismatch d e) (groups.*2) /\
  total (fun d => cell d 1 e) (news.*2)
    == total (fun d => cell d 1 e) (groups.*2).
Proof.
  intros H He. induction H as [|g n groups news Hstep _ [IH1 IH2]].
  - split; reflexivity.
  - destruct Hstep as (_ & _ & _ & _ & Hcons).
    destruct (Hcons e He) as [Hm Hc]. simpl. rewrite IH1, IH2, Hm, Hc.
    split; reflexivity.
Qed.

(** ** Re-aggregation *)

Lemma cell_madd (E T : nat) (a b : matrix) (j e : nat) :
  well_shaped E T a -> well_shaped E T b ->
  cell (madd a b) j e == cell a j e + cell b j e.
Proof.
  intros [Hla Hca] [Hlb Hcb]. unfold cell, madd.
  rewrite !(nth_lookup _ j), lookup_zip_with.
  destruct (a !! j) as [ca|] eqn:Ha; destruct (b !! j) as [cb|] eqn:Hb; simpl.
  - pose proof (proj1 (Forall_lookup _ _) Hca j ca Ha) as Hlen_a.
    pose proof (proj1 (Forall_lookup _ _) Hcb j cb Hb) as Hlen_b.
    simpl in Hlen_a, Hlen_b. unfold vadd.
    rewrite !(nth_lookup _ e), lookup_zip_with.
    destruct (ca !! e) as [x|] eqn:Hx; destruct (cb !! e) as [y|] eqn:Hy;
      simpl; try lra.
    + apply lookup_lt_Some in Hx. apply lookup_ge_None in Hy. lia.
    + apply lookup_lt_Some in Hy. apply lookup_ge_None in Hx. lia.
  - apply lookup_lt_Some in Ha. apply lookup_ge_None in Hb. lia.
  - apply lookup_lt_Some in Hb. apply lookup_ge_None in Ha. lia.
  - destruct e; simpl; lra.
Qed.

Lemma well_shaped_madd (E T : nat) (a b : matrix) :
  well_shaped E T a -> well_shaped E T b -> well_shaped E T (madd a b).
Proof.
  intros [Hla Hca] [Hlb Hcb]. split.
  - unfold madd. rewrite length_zip_with. lia.
  - apply Forall_lookup. intros j col Hj. unfold madd in Hj.
    rewrite lookup_zip_with in Hj.
    destruct (a !! j) as [ca|] eqn:Ha; [|discriminate].
    destruct (b !! j) as [cb|] eqn:Hb; [|discriminate].
    simpl in Hj. inversion Hj; subst.
    pose proof (proj1 (Forall_lookup _ _) Hca j ca Ha) as Hlen_a.
    pose proof (proj1 (Forall_lookup _ _) Hcb j cb Hb) as Hlen_b.
    simpl in *. unfold vadd. rewrite length_zip_with. lia.
Qed.

Lemma cell_nth (data : matrix) (j e : nat) (col : list Q) :
  data !! j = Some col -> cell data j e = nth e col 0.
Proof. intros H. unfold cell. rewrite (nth_lookup_Some _ _ _ _ H). reflexivity. Qed.

Lemma colsum_cells (data : matrix) (n : nat) (e : nat) :
  colsum (drop n data) e
  == foldr (fun j acc => cell data j e + acc) 0 (seq n (length data - n)).
Proof.
  remember (length data - n)%nat as m eqn:Hm. revert n Hm.
  induction m as [|m IH]; intros n Hm.
  - rewrite drop_ge by lia. reflexivity.
  - destruct (lookup_lt_is_Some_2 data n) as [col Hcol]; [lia|].
    rewrite (drop_S _ _ _ Hcol). cbn [colsum foldr seq].
    rewrite (IH (S n)) by lia.
    rewrite (cell_nth data n e col Hcol). reflexivity.
Qed.

Lemma cessions_at_madd (E T : nat) (a b : matrix) (e : nat) :
  well_shaped E T a -> well_shaped E T b ->
  cessions_at (madd a b) e == cessions_at a e + cessions_at b e.
Proof.
  intros Ha Hb. rewrite !cessions_at_colsum, !colsum_cells.
  pose proof (well_shaped_madd E T a b Ha Hb) as [Hlm _].
  destruct Ha as [Hla Hca], Hb as [Hlb Hcb]. rewrite Hlm, Hla, Hlb.
  generalize (seq 2 (2 + T - 2)). intros l.
  induction l as [|j l IH]; simpl; [lra|].
  rewrite IH, (cell_madd E T a b j e) by (split; assumption). lra.
Qed.

Lemma mismatch_madd (E T : nat) (a b : matrix) (e : nat) :
  well_shaped E T a -> well_shaped E T b ->
  mismatch (madd a b) e == mismatch a e + mismatch b e.
Proof.
  intros Ha Hb. unfold mismatch.
  rewrite (cessions_at_madd E T a b e Ha Hb), !(cell_madd E T a b _ e Ha Hb).
  lra.
Qed.

Lemma catxl_zero_madd (E k : nat) (treaty_df : list treaty) (a b : matrix) :
  well_shaped E (length treaty_df) a -> well_shaped E (length treaty_df) b ->
  catxl_zero_from k treaty_df a -> catxl_zero_from k treaty_df b ->
  catxl_zero_from k treaty_df (madd a b).
Proof.
  intros Ha Hb Hza Hzb j tr e Hj Htr Hty.
  rewrite (cell_madd E _ a b _ e Ha Hb).
  rewrite (Hza j tr e Hj Htr Hty), (Hzb j tr e Hj Htr Hty). lra.
Qed.

Section Reaggregate.
Context (P : matrix -> Prop).
Context (P_madd : forall a b, P a -> P b -> P (madd a b)).
Context (f : matrix -> Q).
Context (f_madd : forall a b, P a -> P b -> f (madd a b) == f a + f b).

Lemma agg_insert_keys (k : string) (m : matrix)
    (acc : list (string * matrix)) :
  (agg_insert k m acc).*1
  = if decide (k ∈ acc.*1) then acc.*1 else acc.*1 ++ [k].
Proof.
  induction acc as [|[k' m'] acc IH]; cbn [agg_insert].
  - rewrite decide_False by apply not_elem_of_nil. reflexivity.
  - destruct (decide (k = k')) as [->|Hne]; rewrite !fmap_cons; cbn [fst].
    + rewrite decide_True by left. reflexivity.
    + rewrite IH. destruct (decide (k ∈ acc.*1)) as [Hin|Hin].
      * rewrite decide_True by (by right). reflexivity.
      * rewrite decide_False; [reflexivity|].
        intros Hin'. apply elem_of_cons in Hin' as [?|?]; contradiction.
Qed.

Lemma agg_insert_all (k : string) (m : matrix)
    (acc : list (string * matrix)) :
  P m -> Forall P (acc.*2) -> Forall P ((agg_insert k m acc).*2).
Proof.
  intros Hm. induction acc as [|[k' m'] acc IH]; simpl; intros Hacc.
  - constructor; [exact Hm|constructor].
  - inversion Hacc; subst. destruct (decide (k = k')); simpl;
      constructor; auto.
Qed.

Lemma total_cons (g : matrix -> Q) (m : matrix) (l : list matrix) :
  total g (m :: l) = g m + total g l.
Proof. reflexivity. Qed.

Lemma agg_insert_total (k : string) (m : matrix)
    (acc : list (string * matrix)) :
  P m -> Forall P (acc.*2) ->
  total f ((agg_insert k m acc).*2) == total f (acc.*2) + f m.
Proof.
  intros Hm. induction acc as [|[k' m'] acc IH]; cbn [agg_insert];
    intros Hacc.
  - rewrite fmap_cons, total_cons. unfold total. simpl. lra.
  - rewrite fmap_cons in Hacc. inversion Hacc; subst.
    destruct (decide (k = k')); rewrite !fmap_cons, !total_cons; cbn [snd].
    + rewrite f_madd by assumption. lra.
    + rewrite IH by assumption. lra.
Qed.

Lemma reaggregate_spec (kvs acc : list (string * matrix)) :
  NoDup (acc.*1) -> Forall P (acc.*2) -> Forall P (kvs.*2) ->
  NoDup ((foldl (fun acc '(k, m) => agg_insert k m acc) acc kvs).*1) /\
  Forall P ((foldl (fun acc '(k, m) => agg_insert k m acc) acc kvs).*2) /\
  (forall k, k ∈ (foldl (fun acc '(k, m) => agg_insert k m acc) acc kvs).*1
             <-> k ∈ acc.*1 \/ k ∈ kvs.*1) /\
  total f ((foldl (fun acc '(k, m) => agg_insert k m acc) acc kvs).*2)
    == total f (acc.*2) + total f (kvs.*2).
Proof.
  revert acc. induction kvs as [|[k m] kvs IH]; intros acc Hnd Hacc Hkvs.
  - simpl. split; [exact Hnd|]. split; [exact Hacc|]. split.
    + intros k. split; [auto|].
      intros [?|Hk]; [assumption|by apply elem_of_nil in Hk].
    + unfold total. simpl. lra.
  - rewrite fmap_cons in Hkvs. inversion Hkvs; subst. cbn [foldl].
    assert (Hnd' : NoDup ((agg_insert k m acc).*1)).
    { rewrite agg_insert_keys. case_decide; [exact Hnd|].
      apply NoDup_app. split; [exact Hnd|]. split; [|apply NoDup_singleton].
      intros x Hx Hx'. apply list_elem_of_singleton in Hx'. congruence. }
    destruct (IH (agg_insert k m acc) Hnd' (agg_insert_all k m acc H1 Hacc) H2)
      as (Hn & Hp & Hk & Ht).
    split; [exact Hn|]. split; [exact Hp|]. split.
    + intros x. rewrite Hk, agg_insert_keys, fmap_cons, elem_of_cons.
      cbn [fst]. case_decide.
      * split; [tauto|]. intros [?|[->|?]]; tauto.
      * rewrite elem_of_app, list_elem_of_singleton. tauto.
    + rewrite Ht, agg_insert_total by assumption.
      rewrite fmap_cons, total_cons. cbn [snd]. lra.
Qed.
End Reaggregate.

(** ** The recursion over the levels *)

Lemma Forall_zip_groups (Pk : string -> Prop) (Pd : matrix -> Prop)
    (ukeys : list string) (datalist : list matrix) :
  Forall Pk ukeys -> Forall Pd datalist ->
  Forall (fun g => Pk g.1 /\ Pd g.2) (zip ukeys datalist).
Proof.
  intros Hk. revert datalist. induction Hk as [|k ks Hk1 _ IH];
    intros datalist Hd; [constructor|].
  destruct Hd as [|d ds Hd1 Hd]; [constructor|].
  simpl. constructor; auto.
Qed.

Lemma only_empty_key (ukeys : list string) :
  ukeys <> [] -> NoDup ukeys -> Forall (fun key => compatible key []) ukeys ->
  ukeys = [""%string].
Proof.
  intros Hne Hnd Hall. destruct ukeys as [|k ks]; [contradiction|].
  inversion Hall as [|? ? Hk Hks]; subst. apply compatible_nil in Hk. subst k.
  destruct ks as [|k2 ks]; [reflexivity|].
  inversion Hks as [|? ? Hk2 _]; subst. apply compatible_nil in Hk2. subst k2.
  apply NoDup_cons in Hnd as [Hnotin _]. exfalso. apply Hnotin. left.
Qed.

Lemma clever_agg_levels (E : nat) (treaty_df : list treaty) :
  NoDup (code <$> treaty_df) ->
  forall (rest pre : list treaty) (depth : nat) (ukeys : list string)
         (datalist : list matrix) (overdict : gmap string (list Q)),
    treaty_df = pre ++ rest -> (length rest < depth)%nat ->
    ukeys <> [] -> NoDup ukeys -> length ukeys = length datalist ->
    Forall (fun key => compatible key rest) ukeys ->
    Forall (well_shaped E (length treaty_df)) datalist ->
    Forall (catxl_zero_from (length pre) treaty_df) datalist ->
    exists res overdict',
      clever_agg depth ukeys datalist treaty_df
                 (enumerate_dict (outcols_of treaty_df)) overdict
        = Ok (res, overdict') /\
      well_shaped E (length treaty_df) res /\
      forall e, (e < E)%nat ->
        mismatch res e == total (fun d => mismatch d e) datalist /\
        cell res 1 e == total (fun d => cell d 1 e) datalist.
Proof.
  intros Hnd rest.
  induction rest as [|tr rest IH];
    intros pre depth ukeys datalist overdict Hdf Hdepth Hne Hnk Hlen Hcompat
           Hshape Hzero.
  - destruct depth as [|depth]; [simpl in Hdepth; lia|].
    rewrite (only_empty_key ukeys Hne Hnk Hcompat) in *.
    destruct datalist as [|data [|]]; try discriminate Hlen.
    exists data, overdict. split; [reflexivity|].
    inversion Hshape; subst. split; [assumption|].
    intros e _. unfold total. simpl. split; lra.
  - destruct depth as [|depth]; [simpl in Hdepth; lia|]. simpl in Hdepth.
    destruct ukeys as [|key ukeys']; [contradiction|].
    assert (Hkey : exists c nk, key = String c nk).
    { inversion Hcompat as [|? ? Hk _]; subst.
      apply compatible_cons in Hk as (c & nk & -> & _). eauto. }
    destruct Hkey as (c & nk & ->).
    set (groups := zip (String c nk :: ukeys') datalist).
    destruct (agg_loop_conserves E treaty_df pre rest tr groups overdict Hdf Hnd)
      as (news & od1 & Hloop & Hsteps).
    { unfold groups.
      eapply Forall_impl;
        [apply (Forall_zip_groups
                  (fun key => compatible key (tr :: rest))
                  (fun d => well_shaped E (length treaty_df) d /\
                            catxl_zero_from (length pre) treaty_df d))|].
      - exact Hcompat.
      - apply Forall_and. split; assumption.
      - intros g (H1 & H2 & H3). auto. }
    set (P := fun d : matrix =>
                well_shaped E (length treaty_df) d /\
                catxl_zero_from (S (length pre)) treaty_df d).
    assert (P_madd : forall a b, P a -> P b -> P (madd a b)).
    { intros a b [Ha Hza] [Hb Hzb]. split;
        [by apply well_shaped_madd | by eapply catxl_zero_madd]. }
    assert (HPnews : Forall P (news.*2)).
    { apply Forall_fmap. clear -Hsteps.
      induction Hsteps as [|g n ? ? Hs _ IHs]; constructor; [|exact IHs].
      destruct Hs as (_ & _ & H1 & H2 & _). split; assumption. }
    set (groups' := foldl (fun acc '(k, m) => agg_insert k m acc) [] news).
    pose proof (fun f Hf => reaggregate_spec P P_madd f Hf news []
                  (NoDup_nil_2 : NoDup ([].*1)) (Forall_nil_2 _ : Forall P ([].*2)) HPnews)
      as Hre.
    fold groups' in Hre.
    assert (Hrun : clever_agg (S depth) (String c nk :: ukeys') datalist
                     treaty_df (enumerate_dict (outcols_of treaty_df)) overdict
                   = clever_agg depth (groups'.*1) (groups'.*2) treaty_df
                       (enumerate_dict (outcols_of treaty_df)) od1).
    { cbn [clever_agg]. fold groups. rewrite Hloop. simpl.
      unfold fast_agg2. rewrite zip_fst_snd. reflexivity. }
    rewrite Hrun. clear Hrun.
    destruct (Hre (fun d => mismatch d 0) ltac:(intros a b [Ha _] [Hb _];
                 by eapply mismatch_madd)) as (Hnd' & HP' & Hmem & _).
    assert (Hlen_news : length news = length groups)
      by (symmetry; eapply Forall2_length; eauto).
    destruct (IH (pre ++ [tr]) depth (groups'.*1) (groups'.*2) od1)
      as (res & od' & Hres & Hshape_res & Hinv).
    + rewrite <- app_assoc. exact Hdf.
    + lia.
    + destruct news as [|n news'].
      { unfold groups in Hlen_news. destruct datalist; discriminate. }
      intros Hnil. assert (Hin : n.1 ∈ groups'.*1).
      { apply Hmem. right. rewrite fmap_cons. left. }
      rewrite Hnil in Hin. by apply elem_of_nil in Hin.
    + exact Hnd'.
    + rewrite !length_fmap. reflexivity.
    + apply Forall_forall. intros k Hk. apply Hmem in Hk as [Hk|Hk];
        [by apply elem_of_nil in Hk|].
      apply list_elem_of_fmap in Hk as (n & -> & Hn).
      apply list_elem_of_lookup in Hn as [i Hi].
      destruct (Forall2_lookup_r _ _ _ _ _ Hsteps Hi) as (g & _ & Hs).
      destruct Hs as (_ & Hc & _). exact Hc.
    + eapply Forall_impl; [exact HP'|]. intros d [Hd _]. exact Hd.
    + rewrite length_app. simpl. replace (length pre + 1)%nat with (S (length pre)) by lia.
      eapply Forall_impl; [exact HP'|]. intros d [_ Hd]. exact Hd.
    + exists res, od'. split; [exact Hres|]. split; [exact Hshape_res|].
      intros e He. destruct (Hinv e He) as [Hm Hc].
      destruct (Hre (fun d => mismatch d e) ltac:(intros a b [Ha _] [Hb _];
                   by eapply mismatch_madd)) as (_ & _ & _ & Ht1).
      destruct (Hre (fun d => cell d 1 e) ltac:(intros a b [Ha _] [Hb _];
                   by eapply cell_madd)) as (_ & _ & _ & Ht2).
      destruct (level_step_total E _ _ _ _ _ e Hsteps He) as [Hl1 Hl2].
      assert (Hg2 : groups.*2 = datalist).
      { unfold groups. apply snd_zip. simpl in *. lia. }
      rewrite Hg2 in Hl1, Hl2.
      rewrite Hm, Hc, Ht1, Ht2, Hl1, Hl2. unfold total. simpl. split; lra.
Qed.




(** * Further properties *)

(** ** Bounds of the treaty split *)



(** X2.  The treaty split is monotone.  With a capacity that is not negative,
    a larger retention on entry gives, in the same row, a retention and a
    cession on exit that are both at least as large. *)
Theorem apply_treaty_monotone (retention1 retention2 : list Q)
    (deduc capacity : Q) (i : nat) (r1 r2 : Q) :
  retention1 !! i = Some r1 -> retention2 !! i = Some r2 ->
  0 <= capacity -> r1 <= r2 ->
  exists r1' c1' r2' c2' : Q,
    (apply_treaty (np_zeros (length retention1)) retention1 deduc capacity).2
      !! i = Some r1' /\
    (apply_treaty (np_zeros (length retention1)) retention1 deduc capacity).1
      !! i = Some c1' /\
    (apply_treaty (np_zeros (length retention2)) retention2 deduc capacity).2
      !! i = Some r2' /\
    (apply_treaty (np_zeros (length retention2)) retention2 deduc capacity).1
      !! i = Some c2' /\
    r1' <= r2' /\ c1' <= c2'.
Proof.
  intros H1 H2 Hcap Hle.
  assert (Hz1 : np_zeros (length retention1) !! i = Some 0).
  { apply lookup_replicate_2. eapply lookup_lt_Some; eauto. }
  assert (Hz2 : np_zeros (length retention2) !! i = Some 0).
  { apply lookup_replicate_2. eapply lookup_lt_Some; eauto. }
  destruct (apply_treaty_lookup _ _ deduc capacity _ _ _ Hz1 H1) as [Hc1 Hr1].
  destruct (apply_treaty_lookup _ _ deduc capacity _ _ _ Hz2 H2) as [Hc2 Hr2].
  eexists _, _, _, _. repeat (split; [eassumption|]).
  unfold apply_treaty_at. repeat case_Qgtb; simpl; split; lra.
Qed.

Lemma apply_treaty_monotone_witness :
  exists r1' c1' r2' c2' : Q,
    (apply_treaty (np_zeros 1) [120] 50 100).2 !! 0%nat = Some r1' /\
    (apply_treaty (np_zeros 1) [120] 50 100).1 !! 0%nat = Some c1' /\
    (apply_treaty (np_zeros 1) [400] 50 100).2 !! 0%nat = Some r2' /\
    (apply_treaty (np_zeros 1) [400] 50 100).1 !! 0%nat = Some c2' /\
    r1' <= r2' /\ c1' <= c2'.
Proof.
  apply (apply_treaty_monotone [120] [400] 50 100 0 120 400);
    try reflexivity; discriminate.
Defined.

(** ** The validation of the fractions *)

Lemma check_row_from (colvalues : list (list Q)) (i : nat)
    (names : list string) (s : nat) (tot : Q) :
  (forall c, (s <= c < s + length names)%nat ->
     exists v frac, colvalues !! c = Some v /\ v !! i = Some frac) ->
  let row := (fun c => nth i (nth c colvalues []) 0) <$> seq s (length names) in
  let step := fun tot '(c, _) =>
            match colvalues !! c with
            | None => Raise IndexError
            | Some v =>
                match v !! i with
                | None => Raise IndexError
                | Some frac =>
                    if Qgtb frac 1 || Qgtb 0 frac then Raise ValueError
                    else Ok (tot + frac)
                end
            end in
  (Forall (fun frac => 0 <= frac <= 1) row /\
   foldlM step tot (zip (seq s (length names)) names) = Ok (foldl Qplus tot row)) \/
  (~ Forall (fun frac => 0 <= frac <= 1) row /\
   foldlM step tot (zip (seq s (length names)) names) = Raise ValueError).
Proof.
  intros Hin row step. subst row. revert s tot Hin.
  induction names as [|name names IH]; intros s tot Hin.
  - simpl. left. split; [constructor|reflexivity].
  - cbn [length seq fmap list_fmap zip_with foldlM].
    destruct (Hin s) as (v & frac & Hv & Hf); [simpl; lia|].
    cbn [step]. rewrite Hv, Hf. rewrite (nth_lookup_Some _ _ _ _ Hv).
    rewrite (nth_lookup_Some _ _ _ _ Hf).
    destruct (Qgtb frac 1 || Qgtb 0 frac) eqn:E.
    + right. split; [|reflexivity]. intros Hall.
      inversion Hall as [|? ? [H0 H1] _]; subst.
      apply orb_true_iff in E as [E|E]; apply Qgtb_true in E; lra.
    + apply orb_false_iff in E as [E1 E2].
      apply Qgtb_false in E1, E2. cbn [mbind result_bind].
      destruct (IH (S s) (tot + frac)) as [[Hall Hok]|[Hbad Herr]].
      { intros c Hc. apply Hin. simpl. lia. }
      * left. split; [constructor; [split; assumption | exact Hall]|].
        exact Hok.
      * right. split; [|exact Herr]. intros Hall. apply Hbad.
        inversion Hall; subst. assumption.
Qed.


Lemma fractions_row_seq (colvalues : list (list Q)) (i : nat) :
  (fun c => nth i (nth c colvalues []) 0) <$> seq 0 (length colvalues)
  = fractions_row colvalues i.
Proof.
  unfold fractions_row. apply list_eq. intros c.
  rewrite !list_lookup_fmap.
  destruct (colvalues !! c) as [v|] eqn:Hv; simpl.
  - rewrite lookup_seq_lt by (eapply lookup_lt_Some; eauto). simpl.
    rewrite (nth_lookup_Some _ _ _ _ Hv). reflexivity.
  - rewrite lookup_seq_ge by (by apply lookup_ge_None). reflexivity.
Qed.

Lemma check_row_valid (colnames : list string) (colvalues : list (list Q))
    (n i : nat) :
  length colnames = length colvalues ->
  Forall (fun v => length v = n) colvalues -> (i < n)%nat ->
  let step :=
    tot ← check_row colnames colvalues i;
    if Qgtb tot 1 then Raise ValueError else Ok tt in
  (valid_row colvalues i /\ step = Ok tt) \/
  (~ valid_row colvalues i /\ step = Raise ValueError).
Proof.
  intros Hlen Hcols Hi step. subst step. unfold check_row, valid_row.
  destruct (check_row_from colvalues i colnames 0 0) as [[Hall Hok]|[Hbad Herr]].
  - intros c Hc.
    destruct (lookup_lt_is_Some_2 colvalues c) as [v Hv]; [lia|].
    pose proof (proj1 (Forall_lookup _ _) Hcols c v Hv) as Hlv. simpl in Hlv.
    destruct (lookup_lt_is_Some_2 v i) as [frac Hf]; [lia|]. eauto.
  - rewrite Hok. rewrite Hlen, fractions_row_seq in *. simpl.
    fold (Qsum (fractions_row colvalues i)).
    destruct (Qgtb (Qsum (fractions_row colvalues i)) 1) eqn:E.
    + apply Qgtb_true in E. right. split; [|reflexivity]. intros [_ ?]. lra.
    + apply Qgtb_false in E. left. auto.
  - rewrite Herr. rewrite Hlen, fractions_row_seq in Hbad. right.
    split; [|reflexivity]. intros [? _]. contradiction.
Qed.

Lemma check_fractions_cases (colnames : list string)
    (colvalues : list (list Q)) (n : nat) :
  colvalues <> [] -> length colnames = length colvalues ->
  Forall (fun v => length v = n) colvalues ->
  ((forall i, (i < n)%nat -> valid_row colvalues i) /\
   check_fractions colnames colvalues = Ok tt) \/
  (~ (forall i, (i < n)%nat -> valid_row colvalues i) /\
   check_fractions colnames colvalues = Raise ValueError).
Proof.
  intros Hne Hlen Hcols. unfold check_fractions.
  destruct colvalues as [|v0 vs] eqn:Hcv; [contradiction|]. rewrite <- Hcv in *.
  assert (Hn : length v0 = n).
  { rewrite Hcv in Hcols. by inversion Hcols. }
  rewrite Hn. clear Hn Hcv Hne.
  assert (Hgen : forall rows, Forall (fun i => (i < n)%nat) rows ->
    ((forall i, i ∈ rows -> valid_row colvalues i) /\
     foldlM (fun _ i => tot ← check_row colnames colvalues i;
                        if Qgtb tot 1 then Raise ValueError else Ok tt)
            tt rows = Ok tt) \/
    (~ (forall i, i ∈ rows -> valid_row colvalues i) /\
     foldlM (fun _ i => tot ← check_row colnames colvalues i;
                        if Qgtb tot 1 then Raise ValueError else Ok tt)
            tt rows = Raise ValueError)).
  { induction rows as [|i rows IH]; intros Hrows.
    - left. split; [intros i Hi; by apply elem_of_nil in Hi|reflexivity].
    - inversion Hrows; subst. cbn [foldlM].
      destruct (check_row_valid colnames colvalues n i Hlen Hcols)
        as [[Hv Hok]|[Hv Herr]]; [assumption| |].
      + rewrite Hok. cbn [mbind result_bind].
        destruct IH as [[Hall Hfold]|[Hbad Hfold]]; [assumption| |].
        * left. split; [|exact Hfold]. intros j Hj.
          apply elem_of_cons in Hj as [->|Hj]; auto.
        * right. split; [|exact Hfold]. intros Hall. apply Hbad.
          intros j Hj. apply Hall. by right.
      + rewrite Herr. right. split; [|reflexivity]. intros Hall.
        apply Hv, Hall. left. }
  destruct (Hgen (seq 0 n)) as [[Hall Hfold]|[Hbad Hfold]].
  { apply Forall_forall. intros i Hi. apply elem_of_seq in Hi. lia. }
  - left. split; [|exact Hfold]. intros i Hi. apply Hall.
    apply elem_of_seq. lia.
  - right. split; [|exact Hfold]. intros Hall. apply Hbad. intros i Hi.
    apply Hall. apply elem_of_seq in Hi. lia.
Qed.



(** X4.  The file check covers the assertion.  When [check_fractions] accepted
    the columns of the proportional treaties, [claim_to_cessions] run on the
    policy of any row of those columns does not fail its assertion
    [sum(fractions) <= 1]. *)
Theorem validated_fractions_pass_assert (colnames : list string)
    (colvalues : list (list Q)) (n i : nat) (claim : list Q)
    (policy : gmap string Q) (treaty_df : list treaty) :
  check_fractions colnames colvalues = Ok tt ->
  colvalues <> [] -> Forall (fun v => length v = n) colvalues ->
  (i < n)%nat ->
  colnames = id <$> filter (fun t => type t = prop) treaty_df ->
  Forall2 (fun col v => policy !! col = Some (nth i v 0)) colnames colvalues ->
  claim_to_cessions claim policy treaty_df <> Raise AssertionError.
Proof.
  intros Hcheck Hne Hcols Hi Hnames Hpol.
  assert (Hlen : length colnames = length colvalues)
    by (eapply Forall2_length; eauto).
  destruct (check_fractions_cases colnames colvalues n Hne Hlen Hcols)
    as [[Hall _]|[_ Herr]]; [|congruence].
  destruct (Hall i Hi) as [_ Hsum].
  assert (Hf : mapM (getitem policy) colnames = Ok (fractions_row colvalues i)).
  { apply mapM_getitem_Ok. unfold fractions_row. apply Forall2_fmap_r.
    exact Hpol. }
  unfold claim_to_cessions. rewrite <- Hnames, Hf. simpl.
  apply Qle_bool_iff in Hsum. rewrite Hsum.
  apply bind_not_assertion; [apply foldlM_wxlr_not_assertion | discriminate].
Qed.

Lemma validated_fractions_pass_assert_witness :
  check_fractions ["p1"%string; "p2"%string] [[3 # 10; 1]; [1 # 2; 0]] = Ok tt /\
  claim_to_cessions [100]
    (<["p1"%string := 3 # 10]> (<["p2"%string := 1 # 2]> ∅))
    [Treaty "p1" prop 0 1000 "A"; Treaty "p2" prop 0 1000 "B"]
  <> Raise AssertionError.
Proof.
  split; [reflexivity|].
  apply (validated_fractions_pass_assert ["p1"%string; "p2"%string]
           [[3 # 10; 1]; [1 # 2; 0]] 2 0 [100]);
    try reflexivity; try discriminate; try lia; repeat constructor.
Defined.

(** ** Missing columns and unread columns in [claim_to_cessions] *)

Lemma getitem_None {V} (d : gmap string V) (k : string) :
  d !! k = None -> getitem d k = Raise KeyError.
Proof. intros H. unfold getitem. rewrite H. reflexivity. Qed.

Lemma getitem_ext {V} (d1 d2 : gmap string V) (k : string) :
  d1 !! k = d2 !! k -> getitem d1 k = getitem d2 k.
Proof. intros H. unfold getitem. rewrite H. reflexivity. Qed.

Lemma mapM_getitem_missing {V} (d : gmap string V) (cols : list string)
    (col : string) :
  col ∈ cols -> d !! col = None -> mapM (getitem d) cols = Raise KeyError.
Proof.
  intros Hin Hnone. induction cols as [|c cols IH];
    [by apply elem_of_nil in Hin|].
  change (mapM (getitem d) (c :: cols))
    with (y ← getitem d c; k ← mapM (getitem d) cols; mret (y :: k)).
  destruct (decide (c = col)) as [->|Hne].
  - rewrite (getitem_None d col Hnone). reflexivity.
  - apply elem_of_cons in Hin as [?|Hin]; [congruence|].
    rewrite (IH Hin). destruct (getitem d c) as [v|e] eqn:E; [reflexivity|].
    unfold getitem in E. destruct (d !! c); inversion E. reflexivity.
Qed.

Lemma wxlr_cession_cases (claim : list Q) (policy : gmap string Q)
    (out : gmap string (list Q)) (tr : treaty) :
  (exists out', wxlr_cession claim policy out tr = Ok out') \/
  wxlr_cession claim policy out tr = Raise KeyError.
Proof.
  unfold wxlr_cession, getitem.
  destruct (policy !! id tr) as [p|]; [|by right]. simpl.
  destruct (truthy p); [|eauto].
  rewrite lookup_insert_eq. simpl.
  destruct (_ !! "retention"%string) as [ret|]; [|by right]. simpl.
  destruct (apply_treaty _ ret _ _). eauto.
Qed.

Lemma foldlM_wxlr_missing (claim : list Q) (policy : gmap string Q)
    (wxl : list treaty) (out : gmap string (list Q)) (tr : treaty) :
  tr ∈ wxl -> policy !! id tr = None ->
  foldlM (wxlr_cession claim policy) out wxl = Raise KeyError.
Proof.
  intros Hin Hnone. revert out.
  induction wxl as [|t wxl IH]; intros out; [by apply elem_of_nil in Hin|].
  cbn [foldlM]. apply elem_of_cons in Hin as [<-|Hin].
  - unfold wxlr_cession. rewrite (getitem_None policy _ Hnone). reflexivity.
  - destruct (wxlr_cession_cases claim policy out t) as [[out' ->]| ->];
      [|reflexivity].
    cbn [mbind result_bind]. apply IH. exact Hin.
Qed.

(** X5.  A policy that lacks a treaty column.  [claim_to_cessions] raises
    [KeyError] when the policy has no entry for a proportional treaty of the
    catalog; it raises [KeyError] too when the entry of a wxlr treaty is
    missing, once the fractions were read and their sum passed the
    assertion. *)
Theorem claim_to_cessions_missing_column (claim : list Q)
    (policy : gmap string Q) (treaty_df : list treaty) (tr : treaty) :
  tr ∈ treaty_df -> policy !! id tr = None ->
  (type tr = prop ->
   claim_to_cessions claim policy treaty_df = Raise KeyError) /\
  (type tr = wxlr ->
   forall fractions,
     mapM (getitem policy) (id <$> filter (fun t => type t = prop) treaty_df)
       = Ok fractions ->
     Qsum fractions <= 1 ->
     claim_to_cessions claim policy treaty_df = Raise KeyError).
Proof.
  intros Hin Hnone. unfold claim_to_cessions. split.
  - intros Hty. rewrite (mapM_getitem_missing policy _ (id tr)); auto.
    apply list_elem_of_fmap_2. apply list_elem_of_filter. auto.
  - intros Hty fractions Hf Hsum. rewrite Hf. simpl.
    apply Qle_bool_iff in Hsum. rewrite Hsum.
    rewrite (foldlM_wxlr_missing claim policy _ _ tr); auto.
    apply list_elem_of_filter. auto.
Qed.

Lemma claim_to_cessions_missing_column_witness :
  claim_to_cessions [100] (<["p1"%string := 3 # 10]> ∅)
    [Treaty "p1" prop 0 1000 "A"; Treaty "w1" wxlr 10 50 "B"]
  = Raise KeyError.
Proof.
  apply (claim_to_cessions_missing_column [100] (<["p1"%string := 3 # 10]> ∅)
           [Treaty "p1" prop 0 1000 "A"; Treaty "w1" wxlr 10 50 "B"]
           (Treaty "w1" wxlr 10 50 "B") ltac:(set_solver) eq_refl)
    with (fractions := [3 # 10]);
    [reflexivity | reflexivity | discriminate].
Defined.

Lemma mapM_getitem_ext {V} (d1 d2 : gmap string V) (cols : list string) :
  (forall col, col ∈ cols -> d1 !! col = d2 !! col) ->
  mapM (getitem d1) cols = mapM (getitem d2) cols.
Proof.
  induction cols as [|c cols IH]; intros Hext; [reflexivity|].
  change (mapM (getitem d1) (c :: cols))
    with (y ← getitem d1 c; k ← mapM (getitem d1) cols; mret (y :: k)).
  change (mapM (getitem d2) (c :: cols))
    with (y ← getitem d2 c; k ← mapM (getitem d2) cols; mret (y :: k)).
  rewrite (getitem_ext d1 d2 c) by (apply Hext; left).
  rewrite IH; [reflexivity|]. intros col Hcol. apply Hext. by right.
Qed.

Lemma foldlM_wxlr_ext (claim : list Q) (policy1 policy2 : gmap string Q)
    (wxl : list treaty) (out : gmap string (list Q)) :
  (forall tr, tr ∈ wxl -> policy1 !! id tr = policy2 !! id tr) ->
  foldlM (wxlr_cession claim policy1) out wxl
  = foldlM (wxlr_cession claim policy2) out wxl.
Proof.
  revert out. induction wxl as [|t wxl IH]; intros out Hext; [reflexivity|].
  cbn [foldlM].
  assert (Hstep : wxlr_cession claim policy1 out t
                  = wxlr_cession claim policy2 out t).
  { unfold wxlr_cession.
    rewrite (getitem_ext policy1 policy2 (id t)) by (apply Hext; left).
    reflexivity. }
  rewrite Hstep. destruct (wxlr_cession claim policy2 out t); [|reflexivity].
  cbn [mbind result_bind]. apply IH. intros tr Htr. apply Hext. by right.
Qed.

(** X6.  [claim_to_cessions] does not read the catastrophe treaties.  Two
    policies that agree on the columns of the treaties that are not catxl give
    the same result, error or table. *)
Theorem claim_to_cessions_ignores_catxl (claim : list Q)
    (policy1 policy2 : gmap string Q) (treaty_df : list treaty) :
  (forall tr, tr ∈ treaty_df -> type tr <> catxl ->
     policy1 !! id tr = policy2 !! id tr) ->
  claim_to_cessions claim policy1 treaty_df
  = claim_to_cessions claim policy2 treaty_df.
Proof.
  intros Hext. unfold claim_to_cessions.
  rewrite (mapM_getitem_ext policy1 policy2).
  2:{ intros col Hcol. apply list_elem_of_fmap in Hcol as (tr & -> & Htr).
      apply list_elem_of_filter in Htr as [Hty Htr]. apply Hext; [exact Htr|].
      rewrite Hty. discriminate. }
  destruct (mapM (getitem policy2) _) as [fractions|]; [|reflexivity]. simpl.
  destruct (Qle_bool (Qsum fractions) 1); [|reflexivity].
  rewrite (foldlM_wxlr_ext claim policy1 policy2); [reflexivity|].
  intros tr Htr. apply list_elem_of_filter in Htr as [Hty Htr].
  apply Hext; [exact Htr|]. rewrite Hty. discriminate.
Qed.

Lemma claim_to_cessions_ignores_catxl_witness :
  let treaty_df :=
    [Treaty "p1" prop 0 1000 "A"; Treaty "cat1" catxl 50 150 "B"] in
  claim_to_cessions [100]
    (<["p1"%string := 3 # 10]> (<["cat1"%string := 1]> ∅)) treaty_df
  = claim_to_cessions [100] (<["p1"%string := 3 # 10]> ∅) treaty_df.
Proof.
  intros treaty_df. apply claim_to_cessions_ignores_catxl.
  intros tr Htr Hty.
  repeat (apply elem_of_cons in Htr as [->|Htr]);
    [reflexivity | contradiction | by apply elem_of_nil in Htr].
Defined.

(** ** Reconciliation of the cessions of one policy *)


Lemma ceded_ext (out1 out2 : gmap string (list Q)) (trs : list treaty)
    (i : nat) :
  (forall tr, tr ∈ trs -> out1 !! id tr = out2 !! id tr) ->
  ceded out1 trs i = ceded out2 trs i.
Proof.
  induction trs as [|t trs IH]; intros Hext; [reflexivity|]. simpl.
  unfold entry at 1 2. rewrite (Hext t) by left. rewrite IH; [reflexivity|].
  intros tr Htr. apply Hext. by right.
Qed.







(** ** Missing columns and the shape of the policy group key *)

Lemma policy_grp_loop_missing (policy : gmap string Q)
    (treaty_df rest pre : list treaty) (key : list ascii) (tr : treaty) :
  treaty_df = pre ++ rest -> tr ∈ rest -> type tr = catxl ->
  policy !! id tr = None ->
  policy_grp_loop policy (type <$> treaty_df) (length pre) (id <$> rest) key
    = Raise KeyError.
Proof.
  intros Hdf Hin Hty Hnone. revert pre key Hdf.
  induction rest as [|t rest IH]; intros pre key Hdf;
    [by apply elem_of_nil in Hin|].
  simpl.
  assert (Htypes : (type <$> treaty_df) !! length pre = Some (type t)).
  { rewrite list_lookup_fmap, Hdf, list_lookup_middle by reflexivity.
    reflexivity. }
  rewrite Htypes.
  assert (Hnext : forall key',
            policy_grp_loop policy (type <$> treaty_df) (S (length pre))
              (id <$> rest) key' = Raise KeyError \/ t = tr).
  { intros key'. apply elem_of_cons in Hin as [->|Hin]; [by right|]. left.
    specialize (IH Hin (pre ++ [t]) key').
    rewrite length_app in IH. simpl in IH.
    replace (length pre + 1)%nat with (S (length pre)) in IH by lia.
    apply IH. rewrite <- app_assoc. exact Hdf. }
  destruct (type t) eqn:Et.
  - simpl. destruct (Hnext key) as [H| ->]; [exact H|congruence].
  - simpl. destruct (Hnext key) as [H| ->]; [exact H|congruence].
  - destruct (policy !! id t) as [p|] eqn:Hp.
    + rewrite (proj2 (getitem_Ok policy (id t) p) Hp). simpl.
      destruct (Hnext (if Qeq_bool p 0 then <[length pre := "."%char]> key
                       else key)) as [H| ->]; [exact H|congruence].
    + rewrite (getitem_None policy (id t) Hp). reflexivity.
Qed.

(** X8.  A policy that lacks the column of a catastrophe treaty.
    [build_policy_grp] raises [KeyError] when the policy has no entry for a
    catxl treaty of the catalog. *)
Theorem build_policy_grp_missing_column (policy : gmap string Q)
    (treaty_df : list treaty) (tr : treaty) :
  tr ∈ treaty_df -> type tr = catxl -> policy !! id tr = None ->
  build_policy_grp policy treaty_df = Raise KeyError.
Proof.
  intros Hin Hty Hnone. unfold build_policy_grp.
  rewrite (policy_grp_loop_missing policy treaty_df treaty_df [] _ tr);
    auto.
Qed.

Lemma build_policy_grp_missing_column_witness :
  build_policy_grp (<["p1"%string := 3 # 10]> ∅)
    [Treaty "p1" prop 0 1000 "A"; Treaty "cat1" catxl 50 150 "B"]
  = Raise KeyError.
Proof.
  apply (build_policy_grp_missing_column _ _ (Treaty "cat1" catxl 50 150 "B"));
    [set_solver | reflexivity | reflexivity].
Defined.

Lemma build_policy_grp_Ok_compatible (policy : gmap string Q)
    (treaty_df : list treaty) (key : string) :
  build_policy_grp policy treaty_df = Ok key -> compatible key treaty_df.
Proof.
  unfold build_policy_grp. intros H.
  apply bind_Ok in H as (chars & Hloop & H). inversion H; subst. clear H.
  assert (Hpresent : forall tr, tr ∈ treaty_df -> type tr = catxl ->
            is_Some (policy !! id tr)).
  { intros tr Htr Hty. destruct (policy !! id tr) eqn:Hp; [eauto|].
    rewrite (policy_grp_loop_missing policy treaty_df treaty_df [] _ tr)
      in Hloop; auto. discriminate. }
  destruct (policy_grp_loop_spec policy treaty_df treaty_df []
              (code <$> treaty_df)) as (key' & Hloop' & Hlen & Hsym);
    auto using length_fmap.
  simpl in Hloop'. rewrite Hloop in Hloop'. inversion Hloop'; subst key'.
  unfold compatible. rewrite list_ascii_of_string_of_list_ascii.
  apply Forall2_same_length_lookup. split.
  - rewrite Hlen. apply length_fmap.
  - intros c sym tr Hsym_c Htr. rewrite (Hsym c tr Htr) in Hsym_c.
    rewrite decide_True in Hsym_c by (simpl; lia).
    destruct (absent policy tr).
    + inversion Hsym_c. by left.
    + rewrite list_lookup_fmap, Htr in Hsym_c. inversion Hsym_c. by right.
Qed.

(** ** Errors of the engine on malformed keys *)

(** X9.  Malformed group keys.  [clever_agg] raises [IndexError] when the
    first key is empty and other keys follow, and [KeyError] when the first
    key starts with a symbol that is neither '.' nor the code of a treaty of
    the catalog. *)
Theorem clever_agg_malformed_keys (depth : nat) (key : string)
    (ukeys : list string) (data : matrix) (datalist : list matrix)
    (treaty_df : list treaty) (idx : gmap string nat)
    (overdict : gmap string (list Q)) :
  (key = ""%string -> ukeys <> [] ->
   clever_agg (S depth) (key :: ukeys) (data :: datalist) treaty_df idx overdict
     = Raise IndexError) /\
  (forall c newkey, key = String c newkey -> c <> "."%char ->
     c ∉ code <$> treaty_df ->
     clever_agg (S depth) (key :: ukeys) (data :: datalist) treaty_df idx
                overdict = Raise KeyError).
Proof.
  split.
  - intros -> Hne. destruct ukeys as [|k2 ukeys]; [contradiction|].
    reflexivity.
  - intros c newkey -> Hc Hnotin. cbn [clever_agg zip_with agg_loop].
    unfold agg_group. rewrite decide_False by exact Hc.
    unfold loc. rewrite filter_code_nil by exact Hnotin. reflexivity.
Qed.

Lemma clever_agg_malformed_keys_witness :
  let treaty_df := [Treaty "cat1" catxl 50 150 "A"] in
  clever_agg 3 ["Z"%string] [[[200]; [200]; [0]]] treaty_df
    (enumerate_dict (outcols_of treaty_df)) ∅ = Raise KeyError.
Proof.
  intros treaty_df.
  apply (proj2 (clever_agg_malformed_keys 2 "Z" [] [[200]; [200]; [0]] []
                  treaty_df (enumerate_dict (outcols_of treaty_df)) ∅)
           "Z"%char ""%string);
    [reflexivity | discriminate |].
  cbn. intros H. apply list_elem_of_singleton in H. discriminate H.
Defined.

(** ** What the two aggregate treaties do to one group *)






(** ** The keys of the overspill dictionary *)

Lemma overspill_keys_grow_refl (tdf : list treaty)
    (od : gmap string (list Q)) : overspill_keys_grow tdf od od.
Proof. intros k. split; auto. Qed.

Lemma overspill_keys_grow_trans (tdf : list treaty)
    (od1 od2 od3 : gmap string (list Q)) :
  overspill_keys_grow tdf od1 od2 -> overspill_keys_grow tdf od2 od3 ->
  overspill_keys_grow tdf od1 od3.
Proof.
  intros H12 H23 k. destruct (H12 k) as [Ha Hb], (H23 k) as [Hc Hd].
  split; [auto|]. intros H. destruct (Hd H) as [H2|H2]; auto.
Qed.

Lemma loc_elem (tdf : list treaty) (c : ascii) (tr : treaty) :
  loc tdf c = Ok [tr] -> tr ∈ tdf /\ code tr = c.
Proof.
  unfold loc. intros H.
  assert (Hf : filter (fun t => code t = c) tdf = [tr]).
  { destruct (filter (fun t => code t = c) tdf); [discriminate|].
    congruence. }
  assert (Hin : tr ∈ filter (fun t => code t = c) tdf) by (rewrite Hf; left).
  apply list_elem_of_filter in Hin. tauto.
Qed.

Lemma group_step_keys (tdf : list treaty) (idx : gmap string nat)
    (od : gmap string (list Q)) (data : matrix) (c : ascii) (data' : matrix)
    (od' : gmap string (list Q)) :
  group_step tdf idx od data c data' od' -> overspill_keys_grow tdf od od'.
Proof.
  intros [Hc | tr jr jc ret cession overspill has_over ces' ret'
               Hc Hloc Hjr Hret Hjc Hces Hb];
    [apply overspill_keys_grow_refl|].
  destruct has_over; [|apply overspill_keys_grow_refl].
  apply loc_elem in Hloc as [Hin Hcode].
  assert (Hty : type tr <> wxlr).
  { intros Hty. unfold treaty_branch in Hb. rewrite Hty in Hb.
    discriminate Hb. }
  intros k. destruct (decide (k = "over_" +:+ code_key c)) as [->|Hne].
  - rewrite lookup_insert_eq. split; [eauto|]. intros _. right.
    exists tr. rewrite Hcode. auto.
  - rewrite lookup_insert_ne by congruence. split; auto.
Qed.

Lemma agg_loop_keys (tdf : list treaty) (idx : gmap string nat)
    (groups : list (string * matrix)) (od : gmap string (list Q))
    (news : list (string * matrix)) (od' : gmap string (list Q)) :
  agg_loop tdf idx groups od = Ok (news, od') -> overspill_keys_grow tdf od od'.
Proof.
  revert od news. induction groups as [|[key data] groups IH];
    intros od news H.
  - inversion H. apply overspill_keys_grow_refl.
  - apply agg_loop_cons in H as (nk & d' & od1 & n1 & Hg & Hl & _).
    apply agg_group_Ok in Hg as (c & _ & Hstep).
    eapply overspill_keys_grow_trans;
      [eapply group_step_keys; eauto | eapply IH; eauto].
Qed.

Lemma clever_agg_unfold (depth : nat) (ukeys : list string)
    (datalist : list matrix) (tdf : list treaty) (idx : gmap string nat)
    (od : gmap string (list Q)) (res : matrix) (od' : gmap string (list Q)) :
  clever_agg (S depth) ukeys datalist tdf idx od = Ok (res, od') ->
  (ukeys = [""%string] /\ datalist !! 0%nat = Some res /\ od' = od) \/
  exists news od1,
    agg_loop tdf idx (zip ukeys datalist) od = Ok (news, od1) /\
    clever_agg depth (fast_agg2 (news.*1) (news.*2)).1
               (fast_agg2 (news.*1) (news.*2)).2 tdf idx od1 = Ok (res, od').
Proof.
  intros H.
  assert (Hloop :
    (agg_loop tdf idx (zip ukeys datalist) od
       ≫= (fun '(news, od1) =>
             let '(keys, sums) := fast_agg2 (news.*1) (news.*2) in
             clever_agg depth keys sums tdf idx od1)) = Ok (res, od') ->
    exists news od1,
      agg_loop tdf idx (zip ukeys datalist) od = Ok (news, od1) /\
      clever_agg depth (fast_agg2 (news.*1) (news.*2)).1
                 (fast_agg2 (news.*1) (news.*2)).2 tdf idx od1
        = Ok (res, od')).
  { intros H'. apply bind_Ok in H' as ([news od1] & Hl & Hr).
    exists news, od1. split; [exact Hl|].
    destruct (fast_agg2 (news.*1) (news.*2)) as [keys sums]. exact Hr. }
  destruct ukeys as [|key ukeys].
  { right. apply Hloop. exact H. }
  destruct key as [|c nk].
  - destruct ukeys as [|k2 ukeys].
    + destruct datalist as [|data datalist]; [discriminate H|].
      left. inversion H; subst. auto.
    + right. apply Hloop. exact H.
  - right. apply Hloop. exact H.
Qed.

Lemma clever_agg_keys_grow (depth : nat) (ukeys : list string)
    (datalist : list matrix) (tdf : list treaty) (idx : gmap string nat)
    (overdict : gmap string (list Q)) (res : matrix)
    (overdict' : gmap string (list Q)) :
  clever_agg depth ukeys datalist tdf idx overdict = Ok (res, overdict') ->
  overspill_keys_grow tdf overdict overdict'.
Proof.
  revert ukeys datalist overdict.
  induction depth as [|depth IH]; intros ukeys datalist overdict H;
    [discriminate H|].
  apply clever_agg_unfold in H as [(_ & _ & Heq)|(news & od1 & Hl & Hr)].
  - rewrite Heq. apply overspill_keys_grow_refl.
  - apply (overspill_keys_grow_trans tdf overdict od1 overdict').
    + eapply agg_loop_keys; eauto.
    + eapply IH; eauto.
Qed.

(** X12.  The overspill dictionary only grows.  When [clever_agg]
    returns, every key the dictionary held on entry is still there, and every
    new key is 'over_' + code for a treaty of the catalog that is not of type
    wxlr. *)
Theorem clever_agg_overspill_keys (depth : nat) (ukeys : list string)
    (datalist : list matrix) (tdf : list treaty) (idx : gmap string nat)
    (overdict : gmap string (list Q)) (res : matrix)
    (overdict' : gmap string (list Q)) :
  clever_agg depth ukeys datalist tdf idx overdict = Ok (res, overdict') ->
  forall k,
    (is_Some (overdict !! k) -> is_Some (overdict' !! k)) /\
    (is_Some (overdict' !! k) ->
     is_Some (overdict !! k) \/
     exists tr, tr ∈ tdf /\ type tr <> wxlr /\
                k = "over_" +:+ code_key (code tr)).
Proof. intros H. exact (clever_agg_keys_grow _ _ _ _ _ _ _ _ H). Qed.

Lemma clever_agg_overspill_keys_witness :
  let tdf :=
    [Treaty "prop1" prop 0 10 "A"; Treaty "cat1" catxl 50 150 "B"] in
  let datalist : list matrix :=
    [[[0; 190]; [0; 200]; [0; 10]; [0; 0]];
     [[295; 70]; [300; 100]; [5; 30]; [0; 0]]] in
  exists (res : matrix) (overdict' : gmap string (list Q)),
    clever_agg 3 ["A."%string; "AB"%string] datalist tdf
               (enumerate_dict (outcols_of tdf)) ∅ = Ok (res, overdict') /\
    forall k,
      (is_Some ((∅ : gmap string (list Q)) !! k) -> is_Some (overdict' !! k)) /\
      (is_Some (overdict' !! k) ->
       is_Some ((∅ : gmap string (list Q)) !! k) \/
       exists tr, tr ∈ tdf /\ type tr <> wxlr /\
                  k = "over_" +:+ code_key (code tr)).
Proof.
  intros tdf datalist.
  destruct (clever_agg 3 ["A."%string; "AB"%string] datalist tdf
              (enumerate_dict (outcols_of tdf)) ∅)
    as [[res overdict']|e] eqn:H; [|vm_compute in H; discriminate H].
  exists res, overdict'. split; [reflexivity|].
  exact (clever_agg_overspill_keys _ _ _ _ _ _ _ _ H).
Defined.

(** ** The matrices built by [_by_event] *)

Lemma groupby_keys_spec (l : list string) :
  NoDup (groupby_keys l) /\ forall k, k ∈ groupby_keys l <-> k ∈ l.
Proof.
  unfold groupby_keys. split.
  - rewrite merge_sort_Permutation. apply NoDup_remove_dups.
  - intros k. rewrite merge_sort_Permutation. apply elem_of_remove_dups.
Qed.

Lemma mapM_result_Forall {A B} (f : A -> result B) (P : B -> Prop)
    (l : list A) :
  (forall x, x ∈ l -> exists y, f x = Ok y /\ P y) ->
  exists ys, mapM f l = Ok ys /\ length ys = length l /\ Forall P ys.
Proof.
  induction l as [|x l IH]; intros H.
  - exists []. repeat split; constructor.
  - destruct (H x) as (y & Hy & HPy); [left|].
    destruct IH as (ys & Hys & Hlen & HP); [intros; apply H; by right|].
    exists (y :: ys).
    change (mapM f (x :: l)) with (y ← f x; k ← mapM f l; mret (y :: k)).
    rewrite Hy. cbn [mbind result_bind]. rewrite Hys. simpl.
    repeat split; [lia | constructor; assumption].
Qed.

Lemma vsub_lookup (a b : list Q) (e : nat) (x y : Q) :
  a !! e = Some x -> b !! e = Some y -> vsub a b !! e = Some (x - y).
Proof.
  intros Ha Hb. unfold vsub. rewrite lookup_zip_with, Ha, Hb. reflexivity.
Qed.

Lemma vsub_length (a b : list Q) :
  length a = length b -> length (vsub a b) = length a.
Proof. intros H. unfold vsub. rewrite length_zip_with. lia. Qed.

Lemma foldl_vsub_length (cols : matrix) (acc : list Q) :
  Forall (fun col => length col = length acc) cols ->
  length (foldl vsub acc cols) = length acc.
Proof.
  revert acc. induction cols as [|c cols IH]; intros acc H; [reflexivity|].
  inversion H; subst. simpl. rewrite IH.
  - apply vsub_length. congruence.
  - rewrite vsub_length by congruence. assumption.
Qed.

Lemma foldl_vsub_lookup (cols : matrix) (acc : list Q) (e : nat) (a : Q) :
  Forall (fun col => length col = length acc) cols -> acc !! e = Some a ->
  exists x, foldl vsub acc cols !! e = Some x /\ x == a - colsum cols e.
Proof.
  revert acc a. induction cols as [|c cols IH]; intros acc a Hlen Ha; simpl.
  - exists a. split; [exact Ha | unfold colsum; simpl; lra].
  - inversion Hlen as [|? ? Hc Hcols]; subst.
    assert (He : (e < length c)%nat).
    { rewrite Hc. eapply lookup_lt_Some; eauto. }
    destruct (lookup_lt_is_Some_2 _ _ He) as [ce Hce].
    destruct (IH (vsub acc c) (a - ce)) as (x & Hx & Hxe).
    + rewrite vsub_length by congruence. exact Hcols.
    + by apply vsub_lookup.
    + exists x. split; [exact Hx|].
      unfold colsum in *. simpl. rewrite (nth_lookup_Some _ _ _ _ Hce). lra.
Qed.

Lemma filter_none {A} (P : A -> Prop) `{forall x, Decision (P x)}
    (l : list A) :
  Forall (fun x => ~ P x) l -> filter P l = [].
Proof.
  induction 1 as [|x l Hx _ IH]; [reflexivity|].
  rewrite filter_cons, decide_False by exact Hx. exact IH.
Qed.

Lemma aligned_catxl_position (treaty_df : list treaty) (j : nat) (tr : treaty) :
  aligned treaty_df -> treaty_df !! j = Some tr -> type tr = catxl ->
  (length (filter (fun t => type t <> catxl) treaty_df) <= j)%nat.
Proof.
  intros Hal Hj Hty.
  rewrite <- (take_drop j treaty_df), filter_app, length_app.
  assert (Hdrop : filter (fun t => type t <> catxl) (drop j treaty_df) = []).
  { apply filter_none. apply Forall_lookup. intros i t Hi Hnot.
    rewrite lookup_drop in Hi. apply Hnot.
    destruct i as [|i].
    - rewrite Nat.add_0_r in Hi. congruence.
    - apply (Hal j (j + S i)%nat tr t); auto. lia. }
  rewrite Hdrop. simpl.
  pose proof (length_filter (fun t => type t <> catxl) (take j treaty_df)).
  rewrite length_take in *. lia.
Qed.

Lemma group_sum_length (E : nat) (eid : list nat) (grps : list string)
    (key : string) (values : list Q) :
  length (group_sum E eid grps key values) = E.
Proof. unfold group_sum. rewrite length_fmap. apply length_seq. Qed.

Lemma np_zeros_nth (n e : nat) : nth e (np_zeros n) 0 = 0.
Proof.
  unfold np_zeros. rewrite nth_lookup.
  destruct (replicate n 0 !! e) as [x|] eqn:Hx; [|reflexivity].
  apply lookup_replicate in Hx as [-> _]. reflexivity.
Qed.

Lemma group_data_spec (E : nat) (eid : list nat) (rbp : policy_loss_table)
    (treaty_df : list treaty) (key : string) :
  (forall col, col ∈ tail (inpcols_of treaty_df) ->
     is_Some (columns rbp !! col)) ->
  exists data,
    group_data E eid rbp (inpcols_of treaty_df) (outcols_of treaty_df) key
      = Ok data /\
    reconciled_matrix E (length treaty_df) data /\
    (aligned treaty_df -> catxl_zero_from 0 treaty_df data).
Proof.
  intros Hcols. unfold group_data.
  destruct (mapM_result_Forall (getitem (columns rbp)) (fun _ => True)
              (tail (inpcols_of treaty_df))) as (inp & Hinp & Hlen & _).
  { intros col Hcol. destruct (Hcols col Hcol) as [v Hv]. exists v.
    split; [by apply getitem_Ok | exact I]. }
  rewrite Hinp. cbn [mbind result_bind].
  set (m := length (filter (fun t => type t <> catxl) treaty_df)).
  assert (Hm : (m <= length treaty_df)%nat) by apply length_filter.
  assert (Hlen_in : length (inpcols_of treaty_df) = (2 + m)%nat).
  { unfold inpcols_of. simpl. rewrite length_fmap. reflexivity. }
  assert (Hlen_out : length (outcols_of treaty_df) = (2 + length treaty_df)%nat).
  { unfold outcols_of. simpl. rewrite length_fmap. reflexivity. }
  assert (Hlen' : length inp = S m).
  { rewrite Hlen. unfold inpcols_of. simpl. rewrite length_fmap. reflexivity. }
  destruct inp as [|c0 inp]; [discriminate Hlen'|].
  simpl in Hlen'. rewrite fmap_cons.
  set (g := group_sum E eid (policy_grp rbp) key).
  set (cols2 := (g <$> inp) ++
                replicate (length (outcols_of treaty_df)
                           - length (inpcols_of treaty_df)) (np_zeros E)).
  change (np_zeros E :: (g c0 :: (g <$> inp)) ++ _)
    with (np_zeros E :: g c0 :: cols2).
  assert (Hcols2 : Forall (fun col => length col = E) cols2).
  { unfold cols2. apply Forall_app. split.
    - apply Forall_fmap, Forall_forall. intros v _. apply group_sum_length.
    - apply Forall_replicate. unfold np_zeros. apply length_replicate. }
  assert (Hlen2 : length cols2 = length treaty_df).
  { unfold cols2. rewrite length_app, length_fmap, length_replicate. lia. }
  assert (Hg0 : length (g c0) = E) by apply group_sum_length.
  eexists. split; [reflexivity|].
  cbn [insert list_insert drop]. split; [split; [split|]|].
  - simpl. rewrite Hlen2. reflexivity.
  - constructor; [|constructor; [exact Hg0|exact Hcols2]].
    rewrite foldl_vsub_length; [exact Hg0|].
    eapply Forall_impl; [exact Hcols2|]. intros col Hc. simpl in *. congruence.
  - intros e He. unfold mismatch, cell, cessions_at. cbn [drop nth].
    destruct (lookup_lt_is_Some_2 (g c0) e) as [x Hx]; [lia|].
    destruct (foldl_vsub_lookup cols2 (g c0) e x) as (y & Hy & Hye);
      [eapply Forall_impl; [exact Hcols2|]; intros col Hc; simpl in *;
       congruence | exact Hx |].
    rewrite (nth_lookup_Some _ _ _ _ Hy), (nth_lookup_Some _ _ _ _ Hx).
    rewrite drop_0. fold (colsum cols2 e). lra.
  - intros Hal j tr e _ Hj Hty. unfold cell. cbn [Nat.add nth].
    pose proof (aligned_catxl_position treaty_df j tr Hal Hj Hty) as Hpos.
    fold m in Hpos.
    assert (Hjlt : (j < length treaty_df)%nat)
      by (eapply lookup_lt_Some; eauto).
    assert (Hz : cols2 !! j = Some (np_zeros E)).
    { unfold cols2. rewrite lookup_app_r by (rewrite length_fmap; lia).
      apply lookup_replicate_2. rewrite length_fmap. lia. }
    rewrite (nth_lookup_Some _ _ _ _ Hz), np_zeros_nth. reflexivity.
Qed.

Lemma inpcols_present (rbp : policy_loss_table) (treaty_df : list treaty) :
  is_Some (columns rbp !! "claim"%string) ->
  (forall tr, tr ∈ treaty_df -> type tr <> catxl ->
     is_Some (columns rbp !! id tr)) ->
  forall col, col ∈ tail (inpcols_of treaty_df) ->
    is_Some (columns rbp !! col).
Proof.
  intros Hclaim Htr col Hcol. unfold inpcols_of in Hcol. simpl in Hcol.
  apply elem_of_cons in Hcol as [->|Hcol]; [exact Hclaim|].
  apply list_elem_of_fmap in Hcol as (tr & -> & Hin).
  apply list_elem_of_filter in Hin as [Hty Hin]. auto.
Qed.

Lemma policy_loss_matrices_spec (rbp : policy_loss_table)
    (treaty_df : list treaty) :
  is_Some (columns rbp !! "claim"%string) ->
  (forall tr, tr ∈ treaty_df -> type tr <> catxl ->
     is_Some (columns rbp !! id tr)) ->
  exists datalist : list matrix,
    policy_loss_matrices rbp treaty_df
      = Ok (np_unique (event_id rbp), groupby_keys (policy_grp rbp), datalist) /\
    length datalist = length (groupby_keys (policy_grp rbp)) /\
    Forall (fun data =>
              reconciled_matrix (length (np_unique (event_id rbp)))
                                (length treaty_df) data /\
              (aligned treaty_df -> catxl_zero_from 0 treaty_df data))
           datalist.
Proof.
  intros Hclaim Htr. unfold policy_loss_matrices.
  destruct (mapM_result_Forall
              (group_data (length (np_unique (event_id rbp)))
                 ((fun e => index_of e (np_unique (event_id rbp)))
                    <$> event_id rbp)
                 rbp (inpcols_of treaty_df) (outcols_of treaty_df))
              (fun data =>
                 reconciled_matrix (length (np_unique (event_id rbp)))
                                   (length treaty_df) data /\
                 (aligned treaty_df -> catxl_zero_from 0 treaty_df data))
              (groupby_keys (policy_grp rbp)))
    as (datalist & Hmap & Hlen & Hall).
  { intros key _. apply group_data_spec. by apply inpcols_present. }
  exists datalist. rewrite Hmap. auto.
Qed.



(** ** The whole aggregation on a catalog in the expected order *)

Lemma total_zero (f : matrix -> Q) (datalist : list matrix) :
  Forall (fun data => f data == 0) datalist -> total f datalist == 0.
Proof.
  induction 1 as [|data datalist Hd _ IH]; [reflexivity|].
  rewrite total_cons, Hd, IH. lra.
Qed.

Lemma mapM_column_all (res : matrix) (n : nat) :
  (n <= length res)%nat ->
  exists cols, mapM (column res) (seq 0 n) = Ok cols.
Proof.
  intros Hn.
  destruct (mapM_result_Forall (column res) (fun _ => True) (seq 0 n))
    as (cols & Hcols & _).
  - intros j Hj. apply elem_of_seq in Hj.
    destruct (lookup_lt_is_Some_2 res j) as [v Hv]; [lia|].
    exists v. split; [by apply column_Ok | exact I].
  - eauto.
Qed.

Lemma by_event_exact (depth : nat) (rbp : policy_loss_table)
    (treaty_df : list treaty) :
  NoDup (code <$> treaty_df) -> aligned treaty_df ->
  (length treaty_df < depth)%nat ->
  is_Some (columns rbp !! "claim"%string) ->
  (forall tr, tr ∈ treaty_df -> type tr <> catxl ->
     is_Some (columns rbp !! id tr)) ->
  policy_grp rbp <> [] ->
  Forall (fun key => compatible key treaty_df) (policy_grp rbp) ->
  exists (df : event_loss_table) (datalist : list matrix) (res : matrix)
         (overspill : gmap string (list Q)),
    _by_event depth rbp treaty_df = Ok df /\
    out_event_id df = np_unique (event_id rbp) /\
    policy_loss_matrices rbp treaty_df
      = Ok (np_unique (event_id rbp), groupby_keys (policy_grp rbp), datalist) /\
    clever_agg depth (groupby_keys (policy_grp rbp)) datalist treaty_df
               (enumerate_dict (outcols_of treaty_df)) ∅
      = Ok (res, overspill) /\
    forall e, (e < length (np_unique (event_id rbp)))%nat ->
      cell res 0 e + cessions_at res e == cell res 1 e.
Proof.
  intros Hnd Hal Hdepth Hclaim Htr Hne Hcompat.
  destruct (policy_loss_matrices_spec rbp treaty_df Hclaim Htr)
    as (datalist & Hrun & Hlen & Hall).
  set (E := length (np_unique (event_id rbp))) in *.
  set (keys := groupby_keys (policy_grp rbp)) in *.
  destruct (groupby_keys_spec (policy_grp rbp)) as [Hnk Hmem]. fold keys in Hnk, Hmem.
  destruct (clever_agg_levels E treaty_df Hnd treaty_df [] depth keys datalist ∅)
    as (res & overspill & Hagg & [Hlres Hcres] & Hinv); auto.
  { intros Hnil. destruct (policy_grp rbp) as [|k ks]; [contradiction|].
    assert (Hk : k ∈ keys) by (apply Hmem; left).
    rewrite Hnil in Hk. by apply elem_of_nil in Hk. }
  { apply Forall_forall. intros k Hk. apply Hmem in Hk.
    eapply (proj1 (Forall_forall _ _) Hcompat); eauto. }
  { eapply Forall_impl; [exact Hall|]. intros d [[Hs _] _]. exact Hs. }
  { eapply Forall_impl; [exact Hall|]. intros d [_ Hz]. auto. }
  assert (Hmis : forall e, (e < E)%nat -> mismatch res e == 0).
  { intros e He. destruct (Hinv e He) as [Hm _]. rewrite Hm.
    apply total_zero. eapply Forall_impl; [exact Hall|].
    intros d [[_ Hd] _]. auto. }
  destruct (lookup_lt_is_Some_2 res 0) as [ret Hret]; [lia|].
  destruct (lookup_lt_is_Some_2 res 1) as [claim Hcl]; [lia|].
  assert (Hlret : length ret = E)
    by (eapply (proj1 (Forall_lookup _ _) Hcres); eauto).
  assert (Hlcl : length claim = E)
    by (eapply (proj1 (Forall_lookup _ _) Hcres); eauto).
  assert (Hclose : allclose (reconciled res ret) claim = true).
  { apply allclose_true. intros e a d Ha Hd.
    assert (He : (e < length ret)%nat).
    { rewrite Hlret, <- Hlcl. eapply lookup_lt_Some; eauto. }
    destruct (reconciled_lookup res ret e Hret) as (a' & Ha' & Hae);
      [rewrite Hlret; exact Hcres | exact He |].
    assert (a' = a) by congruence. subst a'.
    specialize (Hmis e ltac:(lia)). unfold mismatch in Hmis.
    rewrite (cell_lookup res 1 e claim d Hcl Hd) in Hmis.
    assert (Hz : a - d == 0) by lra.
    rewrite Hz. change (Qabs 0) with 0.
    pose proof (Qabs_nonneg d). unfold rtol. nra. }
  destruct (mapM_column_all res (length (outcols_of treaty_df)))
    as (cols & Hcols).
  { unfold outcols_of. simpl. rewrite length_fmap. lia. }
  eexists _, datalist, res, overspill. split; [|split; [|split; [|split]]].
  - unfold _by_event. rewrite Hrun. cbn [mbind result_bind].
    rewrite Hagg. cbn [mbind result_bind].
    rewrite (proj2 (column_Ok res 0 ret) Hret). cbn [mbind result_bind].
    rewrite (proj2 (column_Ok res 1 claim) Hcl). cbn [mbind result_bind].
    rewrite Hclose, Hcols. reflexivity.
  - reflexivity.
  - exact Hrun.
  - exact Hagg.
  - intros e He. specialize (Hmis e He). unfold mismatch in Hmis. lra.
Qed.



(** ** The columns returned by [claim_to_cessions] *)

Lemma insert_columns_shape {W} (P : list Q -> Prop) (g : W -> list Q)
    (cols : list string) (ws : list W) (out : gmap string (list Q)) :
  map_Forall (fun _ v => P v) out -> (forall w, P (g w)) ->
  length cols = length ws ->
  map_Forall (fun _ v => P v)
    (foldl (fun out '(col, w) => <[col := g w]> out) out (zip cols ws)) /\
  (forall k, is_Some (foldl (fun out '(col, w) => <[col := g w]> out) out
                            (zip cols ws) !! k)
             <-> is_Some (out !! k) \/ k ∈ cols).
Proof.
  intros Hout Hg. revert ws out Hout.
  induction cols as [|c cols IH]; intros [|w ws] out Hout Hlen;
    try discriminate Hlen.
  - simpl. split; [exact Hout|]. intros k. split; [auto|].
    intros [?|Hk]; [assumption|]. by apply elem_of_nil in Hk.
  - simpl.
    destruct (IH ws (<[c := g w]> out)) as [Hshape Hkeys];
      [apply map_Forall_insert_2; auto | simpl in Hlen; lia |].
    split; [exact Hshape|]. intros k. rewrite Hkeys, elem_of_cons.
    destruct (decide (k = c)) as [->|Hne].
    + rewrite lookup_insert_eq. split; [auto|]. intros _. left. eauto.
    + rewrite lookup_insert_ne by congruence. tauto.
Qed.

Lemma wxlr_cession_shape (claim : list Q) (policy : gmap string Q)
    (out out' : gmap string (list Q)) (tr : treaty) :
  wxlr_cession claim policy out tr = Ok out' ->
  map_Forall (fun _ v => length v = length claim) out ->
  map_Forall (fun _ v => length v = length claim) out' /\
  (forall k, is_Some (out' !! k) <-> is_Some (out !! k) \/ k = id tr).
Proof.
  unfold wxlr_cession. intros H Hshape.
  assert (Hz : length (np_zeros (length claim)) = length claim)
    by (unfold np_zeros; apply length_replicate).
  assert (Hshape1 : map_Forall (fun _ v => length v = length claim)
                      (<[id tr := np_zeros (length claim)]> out))
    by (apply map_Forall_insert_2; auto).
  assert (Hkeys1 : forall k,
            is_Some (<[id tr := np_zeros (length claim)]> out !! k)
            <-> is_Some (out !! k) \/ k = id tr).
  { intros k. destruct (decide (k = id tr)) as [->|Hne].
    - rewrite lookup_insert_eq. split; [auto|]. eauto.
    - rewrite lookup_insert_ne by congruence. tauto. }
  apply bind_Ok in H as (p & _ & H). destruct (truthy p).
  - apply bind_Ok in H as (cession & Hc & H). apply getitem_Ok in Hc.
    apply bind_Ok in H as (ret & Hr & H). apply getitem_Ok in Hr.
    rewrite lookup_insert_eq in Hc. inversion Hc; subst cession.
    pose proof (Hshape1 _ _ Hr) as Hlr. simpl in Hlr.
    destruct (apply_treaty (np_zeros (length claim)) ret (deductible tr)
                (limit tr - deductible tr)) as [c r] eqn:Ha.
    destruct (apply_treaty_length (np_zeros (length claim)) ret
                (deductible tr) (limit tr - deductible tr)) as [Hl1 Hl2];
      [congruence|].
    rewrite Ha in Hl1, Hl2. simpl in Hl1, Hl2. inversion H; subst out'.
    split.
    + apply map_Forall_insert_2; [congruence|].
      apply map_Forall_insert_2; [congruence|]. exact Hshape1.
    + intros k. destruct (decide (k = id tr)) as [->|Hne];
        [rewrite lookup_insert_eq; split; [auto|eauto]|].
      rewrite lookup_insert_ne by congruence.
      destruct (decide (k = "retention"%string)) as [->|Hne'].
      * rewrite lookup_insert_eq. rewrite <- Hkeys1, Hr. split; eauto.
      * rewrite lookup_insert_ne by congruence. apply Hkeys1.
  - inversion H; subst out'. split; [exact Hshape1 | exact Hkeys1].
Qed.

Lemma foldlM_wxlr_shape (claim : list Q) (policy : gmap string Q)
    (wxl : list treaty) (out out' : gmap string (list Q)) :
  foldlM (wxlr_cession claim policy) out wxl = Ok out' ->
  map_Forall (fun _ v => length v = length claim) out ->
  map_Forall (fun _ v => length v = length claim) out' /\
  (forall k, is_Some (out' !! k) <-> is_Some (out !! k) \/ k ∈ id <$> wxl).
Proof.
  revert out. induction wxl as [|t wxl IH]; intros out H Hshape.
  - inversion H; subst. split; [exact Hshape|]. intros k. split; [auto|].
    intros [?|Hk]; [assumption|]. by apply elem_of_nil in Hk.
  - cbn [foldlM] in H. apply bind_Ok in H as (out1 & Hstep & Hloop).
    destruct (wxlr_cession_shape _ _ _ _ _ Hstep Hshape) as (Hs1 & Hk1).
    destruct (IH out1 Hloop Hs1) as (Hs' & Hk').
    split; [exact Hs'|]. intros k.
    rewrite Hk', Hk1, fmap_cons, elem_of_cons. tauto.
Qed.

Lemma claim_to_cessions_columns (claim : list Q) (policy : gmap string Q)
    (treaty_df : list treaty) (out : gmap string (list Q)) :
  claim_to_cessions claim policy treaty_df = Ok out ->
  map_Forall (fun _ v => length v = length claim) out /\
  (forall k, is_Some (out !! k) <-> cession_column treaty_df k).
Proof.
  unfold claim_to_cessions. intros H.
  apply bind_Ok in H as (fractions & Hf & H).
  destruct (Qle_bool (Qsum fractions) 1); [|discriminate H].
  apply bind_Ok in H as (out2 & Hloop & H). inversion H; subst out. clear H.
  set (cols := id <$> filter (fun t => type t = prop) treaty_df) in *.
  set (out0 := <["claim"%string := claim]>
                 (<["retention"%string := scale claim (1 - Qsum fractions)]> ∅)
               : gmap string (list Q)) in *.
  assert (Hlen : length cols = length fractions).
  { apply mapM_getitem_Ok in Hf. eapply Forall2_length; eauto. }
  destruct (insert_columns_shape (fun v => length v = length claim)
              (scale claim) cols fractions out0) as [Hs1 Hk1].
  { unfold out0. apply map_Forall_insert_2; [reflexivity|].
    apply map_Forall_insert_2; [apply length_fmap|]. apply map_Forall_empty. }
  { intros w. apply length_fmap. }
  { exact Hlen. }
  destruct (foldlM_wxlr_shape _ _ _ _ _ Hloop Hs1) as (Hs2 & Hk2).
  split.
  - apply map_Forall_fmap. eapply map_Forall_impl; [exact Hs2|].
    intros k v Hv. simpl. unfold np_round6. rewrite length_fmap. exact Hv.
  - intros k. rewrite lookup_fmap, fmap_is_Some, Hk2, Hk1.
    assert (H0 : is_Some (out0 !! k)
                 <-> k = "claim"%string \/ k = "retention"%string).
    { unfold out0. destruct (decide (k = "claim"%string)) as [->|Hc];
        [rewrite lookup_insert_eq; split; [auto|eauto]|].
      rewrite lookup_insert_ne by congruence.
      destruct (decide (k = "retention"%string)) as [->|Hr];
        [rewrite lookup_insert_eq; split; [auto|eauto]|].
      rewrite lookup_insert_ne, lookup_empty by congruence.
      split; [intros [? ?]; discriminate | tauto]. }
    rewrite H0. unfold cession_column, cols.
    split.
    + intros [[[?|?]|Hk]|Hk]; [tauto | tauto | |];
        apply list_elem_of_fmap in Hk as (tr & -> & Htr);
        apply list_elem_of_filter in Htr as [Hty Htr];
        right; right; exists tr; (split; [exact Htr|]);
        (split; [congruence | reflexivity]).
    + intros [?|[?|(tr & Htr & Hty & <-)]]; [tauto | tauto |].
      destruct (type tr) eqn:E; [| |contradiction].
      * left. right. apply list_elem_of_fmap_2. by apply list_elem_of_filter.
      * right. apply list_elem_of_fmap_2. by apply list_elem_of_filter.
Qed.

(** ** Boolean masks *)

Lemma mask_filter_length {A B} (mask : list bool) (v : list A) (w : list B) :
  length v = length mask -> length w = length mask ->
  length (mask_filter mask v) = length (mask_filter mask w).
Proof.
  unfold mask_filter. revert v w.
  induction mask as [|b mask IH]; intros [|x v] [|y w] Hv Hw;
    try discriminate Hv; try discriminate Hw; [reflexivity|].
  simpl in Hv, Hw. cbn [zip zip_with omap list_omap].
  destruct b; simpl; rewrite (IH v w) by lia; reflexivity.
Qed.

Lemma mask_filter_elem {A} (mask : list bool) (v : list A) (x : A) :
  x ∈ mask_filter mask v -> x ∈ v.
Proof.
  unfold mask_filter. revert v.
  induction mask as [|b mask IH]; intros [|y v] Hx;
    try (by apply elem_of_nil in Hx).
  cbn [zip zip_with omap list_omap] in Hx. destruct b.
  - apply elem_of_cons in Hx as [->|Hx]; [left | right; auto].
  - right. auto.
Qed.

Lemma mask_filter_positive (claims : list Q) :
  Forall (fun c => 0 < c) (mask_filter ((fun c => Qgtb c 0) <$> claims) claims).
Proof.
  unfold mask_filter. induction claims as [|c claims IH]; [constructor|].
  rewrite fmap_cons. cbn [zip zip_with omap list_omap].
  destruct (Qgtb c 0) eqn:Hc; [|exact IH].
  constructor; [by apply Qgtb_true | exact IH].
Qed.

Lemma mask_select_Ok {A} (mask : list bool) (v w : list A) :
  mask_select mask v = Ok w <->
  length mask = length v /\ w = mask_filter mask v.
Proof.
  unfold mask_select. destruct (decide (length mask = length v)); split.
  - intros H. inversion H. auto.
  - intros [_ ->]. reflexivity.
  - discriminate.
  - intros [? _]. contradiction.
Qed.

(** ** The frame of one policy *)

Lemma by_policy_Ok (insured_losses : list Q -> Q -> Q -> list Q)
    (agglosses_df : list loss_row) (pol_dict : gmap string Q)
    (treaty_df : list treaty) (f : policy_frame) :
  by_policy insured_losses agglosses_df pol_dict treaty_df = Ok f ->
  exists (policy : Q) (out : gmap string (list Q)) (claims : list Q),
    pol_dict !! "policy"%string = Some policy /\
    claim_to_cessions
      (insured_losses
         (row_loss <$>
            filter (fun row =>
                      Qeq_bool (inject_Z (row_agg_id row)) (policy - 1) = true)
                   agglosses_df)
         (default 0 (pol_dict !! "deductible"%string))
         (default 0 (pol_dict !! "liability"%string)))
      pol_dict treaty_df = Ok out /\
    out !! "claim"%string = Some claims /\
    map_Forall (fun _ v => length v = length claims) out /\
    length (frame_event_id f)
      = length (mask_filter ((fun c => Qgtb c 0) <$> claims) claims) /\
    frame_policy_id f
      = replicate (length (frame_event_id f)) (Qtrunc policy) /\
    Forall (fun e => e ∈ row_event_id <$> agglosses_df) (frame_event_id f) /\
    frame_columns f = mask_filter ((fun c => Qgtb c 0) <$> claims) <$> out /\
    build_policy_grp pol_dict treaty_df = Ok (frame_policy_grp f).
Proof.
  unfold by_policy. intros H.
  apply bind_Ok in H as (policy & Hpol & H). apply getitem_Ok in Hpol.
  apply bind_Ok in H as (ded & Hded & H). apply getitem_Ok in Hded.
  apply bind_Ok in H as (lim & Hlim & H). apply getitem_Ok in Hlim.
  apply bind_Ok in H as (out & Hout & H).
  apply bind_Ok in H as (claims & Hclaims & H). apply getitem_Ok in Hclaims.
  apply bind_Ok in H as (eids & Heids & H).
  apply mask_select_Ok in Heids as [Hle ->].
  apply bind_Ok in H as (pids & Hpids & H).
  apply mask_select_Ok in Hpids as [Hlp ->].
  destruct (bool_decide _) eqn:Hshape in H; [|discriminate H].
  apply bool_decide_eq_true in Hshape.
  apply bind_Ok in H as (grp & Hgrp & H). inversion H; subst f; clear H.
  cbn [frame_event_id frame_policy_id frame_columns frame_policy_grp].
  rewrite length_fmap in Hle, Hlp, Hshape.
  exists policy, out, claims. rewrite Hded, Hlim. cbn [default].
  split; [exact Hpol|]. split; [exact Hout|]. split; [exact Hclaims|].
  split; [exact Hshape|]. split; [|split; [|split; [|split]]].
  - apply mask_filter_length; rewrite !length_fmap in *; congruence.
  - set (m := (fun c => Qgtb c 0) <$> claims) in *.
    set (df := filter _ agglosses_df) in *.
    assert (Hall : Forall (fun p => p = Qtrunc policy)
                     (mask_filter m (replicate (length df) (Qtrunc policy)))).
    { apply Forall_forall. intros p Hp. apply mask_filter_elem in Hp.
      by apply elem_of_replicate in Hp as [-> _]. }
    rewrite (mask_filter_length m (row_event_id <$> df)
               (replicate (length df) (Qtrunc policy)))
      by (unfold m; rewrite !length_fmap in *; congruence).
    revert Hall. generalize (mask_filter m (replicate (length df) (Qtrunc policy))).
    induction 1 as [|p l -> _ IH]; [reflexivity|]. simpl. by rewrite <- IH.
  - apply Forall_forall. intros e He. apply mask_filter_elem in He.
    apply list_elem_of_fmap in He as (row & -> & Hrow).
    apply list_elem_of_fmap_2. apply list_elem_of_filter in Hrow as [_ Hrow].
    exact Hrow.
  - reflexivity.
  - exact Hgrp.
Qed.

Lemma by_policy_Ok_frame (insured_losses : list Q -> Q -> Q -> list Q)
    (agglosses_df : list loss_row) (pol_dict : gmap string Q)
    (treaty_df : list treaty) (f : policy_frame) :
  by_policy insured_losses agglosses_df pol_dict treaty_df = Ok f ->
  length (frame_policy_id f) = length (frame_event_id f) /\
  map_Forall (fun _ v => length v = length (frame_event_id f))
             (frame_columns f) /\
  (forall k, is_Some (frame_columns f !! k) <-> cession_column treaty_df k) /\
  (exists claims, frame_columns f !! "claim"%string = Some claims /\
                  Forall (fun c => 0 < c) claims) /\
  Forall (fun e => e ∈ row_event_id <$> agglosses_df) (frame_event_id f) /\
  compatible (frame_policy_grp f) treaty_df.
Proof.
  intros H.
  apply by_policy_Ok in H
    as (policy & out & claims & Hpol & Hout & Hclaims & Hshape & Hlen & Hpid
        & Heid & Hcols & Hgrp).
  apply claim_to_cessions_columns in Hout as [_ Hkeys].
  split; [|split; [|split; [|split; [|split]]]].
  - rewrite Hpid. apply length_replicate.
  - rewrite Hcols. apply map_Forall_fmap.
    eapply map_Forall_impl; [exact Hshape|]. intros k v Hv. simpl.
    rewrite Hlen. apply mask_filter_length; rewrite length_fmap; auto.
  - intros k. rewrite Hcols, lookup_fmap, fmap_is_Some. apply Hkeys.
  - exists (mask_filter ((fun c => Qgtb c 0) <$> claims) claims). split.
    + rewrite Hcols, lookup_fmap, Hclaims. reflexivity.
    + apply mask_filter_positive.
  - exact Heid.
  - eapply build_policy_grp_Ok_compatible; eauto.
Qed.

(** ** The concatenation of the frames *)

Lemma mapM_result_inv {A B} (f : A -> result B) (l : list A) (ys : list B) :
  mapM f l = Ok ys ->
  Forall (fun y => exists x, x ∈ l /\ f x = Ok y) ys.
Proof.
  revert ys. induction l as [|x l IH]; intros ys H.
  - inversion H. constructor.
  - change (mapM f (x :: l)) with (y ← f x; k ← mapM f l; mret (y :: k)) in H.
    apply bind_Ok in H as (y & Hy & H). apply bind_Ok in H as (k & Hk & H).
    inversion H; subst ys. constructor.
    + exists x. split; [left | exact Hy].
    + eapply Forall_impl; [exact (IH k Hk)|].
      intros y' (x' & Hx' & Hy'). exists x'. split; [by right | exact Hy'].
Qed.

Section Concat.

Variable P : Q -> Prop.
Variable k : string.

Abbreviation step :=
  (fun (acc : gmap string (list Q)) (f : policy_frame) =>
     union_with (fun a b => Some (a ++ b)) acc (frame_table f)).


Lemma concat_present (dfs : list policy_frame) (acc : gmap string (list Q))
    (a : list Q) :
  acc !! k = Some a -> Forall P a ->
  Forall (fun f => exists v, frame_table f !! k = Some v /\
                             length v = length (frame_event_id f) /\
                             Forall P v) dfs ->
  exists v, foldl step acc dfs !! k = Some v /\
            length v = (length a + length (dfs ≫= frame_event_id))%nat /\
            Forall P v.
Proof.
  revert acc a. induction dfs as [|f dfs IH]; intros acc a Ha HPa Hall.
  - exists a. simpl. split; [exact Ha|]. split; [lia | exact HPa].
  - apply Forall_cons in Hall as [(v & Hv & Hlv & HPv) Hall].
    destruct (IH (step acc f) (a ++ v)) as (r & Hr & Hlr & HPr).
    + cbn beta. rewrite lookup_union_with, Ha, Hv. reflexivity.
    + apply Forall_app. auto.
    + exact Hall.
    + exists r. split; [exact Hr|]. split; [|exact HPr].
      rewrite Hlr, length_app, Hlv. cbn [mbind list_bind].
      rewrite length_app. lia.
Qed.

Lemma concat_absent (dfs : list policy_frame) (acc : gmap string (list Q)) :
  acc !! k = None -> Forall (fun f => frame_table f !! k = None) dfs ->
  foldl step acc dfs !! k = None.
Proof.
  revert acc. induction dfs as [|f dfs IH]; intros acc Ha Hall; [exact Ha|].
  apply Forall_cons in Hall as [Hf Hall]. simpl. apply IH; [|exact Hall].
  cbn beta. rewrite lookup_union_with, Ha, Hf. reflexivity.
Qed.

Lemma concat_column (dfs : list policy_frame) :
  dfs <> [] ->
  Forall (fun f => exists v, frame_table f !! k = Some v /\
                             length v = length (frame_event_id f) /\
                             Forall P v) dfs ->
  exists v, foldl step ∅ dfs !! k = Some v /\
            length v = length (dfs ≫= frame_event_id) /\
            Forall P v.
Proof.
  destruct dfs as [|f dfs]; [contradiction|]. intros _ Hall.
  apply Forall_cons in Hall as [(v & Hv & Hlv & HPv) Hall].
  destruct (concat_present dfs (step ∅ f) v) as (r & Hr & Hlr & HPr); auto.
  { cbn beta. rewrite lookup_union_with, lookup_empty, Hv. reflexivity. }
  exists r. split; [exact Hr|]. split; [|exact HPr].
  rewrite Hlr. cbn [mbind list_bind]. rewrite length_app. lia.
Qed.

End Concat.

Lemma frame_table_lookup (treaty_df : list treaty) (f : policy_frame)
    (k : string) :
  (forall k, is_Some (frame_columns f !! k) <-> cession_column treaty_df k) ->
  length (frame_policy_id f) = length (frame_event_id f) ->
  map_Forall (fun _ v => length v = length (frame_event_id f))
             (frame_columns f) ->
  (cession_column treaty_df k \/ k = "policy_id"%string ->
   exists v, frame_table f !! k = Some v /\
             length v = length (frame_event_id f)) /\
  (~ (cession_column treaty_df k \/ k = "policy_id"%string) ->
   frame_table f !! k = None).
Proof.
  intros Hkeys Hpid Hshape. unfold frame_table.
  destruct (decide (k = "policy_id"%string)) as [->|Hne].
  - rewrite lookup_insert_eq. split; [|tauto]. intros _.
    eexists. split; [reflexivity|]. rewrite length_fmap. exact Hpid.
  - rewrite lookup_insert_ne by congruence. split.
    + intros [Hk|?]; [|contradiction]. apply Hkeys in Hk as [v Hv].
      exists v. split; [exact Hv|]. exact (Hshape _ _ Hv).
    + intros Hk. destruct (frame_columns f !! k) eqn:E; [|reflexivity].
      exfalso. apply Hk. left. apply Hkeys. rewrite E. eauto.
Qed.

Lemma group_by_policies_Ok (insured_losses : list Q -> Q -> Q -> list Q)
    (policy_dicts : list (gmap string Q)) (agglosses_df : list loss_row)
    (treaty_df : list treaty) (rbp : policy_loss_table) :
  group_by_policies insured_losses policy_dicts agglosses_df treaty_df
    = Ok rbp ->
  policy_dicts <> [] /\
  length (policy_grp rbp) = length (event_id rbp) /\
  Forall (fun e => e ∈ row_event_id <$> agglosses_df) (event_id rbp) /\
  Forall (fun key => compatible key treaty_df) (policy_grp rbp) /\
  (forall k, cession_column treaty_df k \/ k = "policy_id"%string ->
     exists v, columns rbp !! k = Some v /\
               length v = length (event_id rbp)) /\
  (forall k, ~ (cession_column treaty_df k \/ k = "policy_id"%string) ->
     columns rbp !! k = None) /\
  (exists claims, columns rbp !! "claim"%string = Some claims /\
                  Forall (fun c => 0 < c) claims).
Proof.
  unfold group_by_policies. intros H.
  apply bind_Ok in H as (dfs & Hdfs & H).
  assert (Hpol : policy_dicts <> []).
  { intros ->. inversion Hdfs; subst dfs. discriminate H. }
  apply mapM_result_inv in Hdfs.
  assert (Hframes : Forall (fun f =>
            length (frame_policy_id f) = length (frame_event_id f) /\
            map_Forall (fun _ v => length v = length (frame_event_id f))
                       (frame_columns f) /\
            (forall k, is_Some (frame_columns f !! k)
                       <-> cession_column treaty_df k) /\
            (exists claims, frame_columns f !! "claim"%string = Some claims /\
                            Forall (fun c => 0 < c) claims) /\
            Forall (fun e => e ∈ row_event_id <$> agglosses_df)
                   (frame_event_id f) /\
            compatible (frame_policy_grp f) treaty_df) dfs).
  { eapply Forall_impl; [exact Hdfs|]. intros f (pol & _ & Hf).
    eapply by_policy_Ok_frame; eauto. }
  clear Hdfs. unfold pd_concat in H.
  assert (Hne : dfs <> []) by (intros ->; discriminate H).
  destruct dfs as [|f0 dfs0] eqn:Edfs; [contradiction|].
  rewrite <- Edfs in *. clear Edfs f0 dfs0.
  inversion H; subst rbp; clear H. cbn [event_id policy_grp columns].
  split; [exact Hpol|]. split; [|split; [|split; [|split; [|split]]]].
  - clear Hne Hframes. induction dfs as [|f dfs IH]; [reflexivity|].
    cbn [mbind list_bind]. rewrite !length_app, length_replicate.
    f_equal. exact IH.
  - apply Forall_forall. intros e He. apply list_elem_of_bind in He
      as (f & He & Hf).
    pose proof (proj1 (Forall_forall _ _) Hframes f Hf) as (_&_&_&_&Hev&_).
    exact (proj1 (Forall_forall _ _) Hev e He).
  - apply Forall_forall. intros key Hkey. apply list_elem_of_bind in Hkey
      as (f & Hkey & Hf). apply elem_of_replicate in Hkey as [-> _].
    pose proof (proj1 (Forall_forall _ _) Hframes f Hf) as (_&_&_&_&_&Hc).
    exact Hc.
  - intros k Hk.
    destruct (concat_column (fun _ => True) k dfs Hne) as (v & Hv & Hlv & _).
    { eapply Forall_impl; [exact Hframes|].
      intros f (Hpid & Hshape & Hkeys & _).
      destruct (proj1 (frame_table_lookup treaty_df f k Hkeys Hpid Hshape) Hk)
        as (v & Hv & Hlv).
      exists v. split; [exact Hv|]. split; [exact Hlv|].
      apply Forall_forall. auto. }
    exists v. auto.
  - intros k Hk. apply concat_absent; [apply lookup_empty|].
    eapply Forall_impl; [exact Hframes|].
    intros f (Hpid & Hshape & Hkeys & _).
    exact (proj2 (frame_table_lookup treaty_df f k Hkeys Hpid Hshape) Hk).
  - destruct (concat_column (fun c => 0 < c) "claim" dfs Hne)
      as (v & Hv & _ & HPv).
    { eapply Forall_impl; [exact Hframes|].
      intros f (Hpid & Hshape & Hkeys & (claims & Hcl & Hpos) & _).
      exists claims. unfold frame_table.
      rewrite lookup_insert_ne by discriminate.
      split; [exact Hcl|]. split; [exact (Hshape _ _ Hcl) | exact Hpos]. }
    exists v. auto.
Qed.

(** X15.  The frame of one policy.  When [by_policy] returns, its
    columns all have the length of the column of event ids, they are 'claim',
    'retention' and the ids of the treaties that are not catxl, every claim
    kept is positive, every event id comes from the table of losses, and the
    policy group fits the catalog. *)
Theorem by_policy_frame (insured_losses : list Q -> Q -> Q -> list Q)
    (agglosses_df : list loss_row) (pol_dict : gmap string Q)
    (treaty_df : list treaty) (f : policy_frame) :
  by_policy insured_losses agglosses_df pol_dict treaty_df = Ok f ->
  length (frame_policy_id f) = length (frame_event_id f) /\
  map_Forall (fun _ v => length v = length (frame_event_id f))
             (frame_columns f) /\
  (forall k, is_Some (frame_columns f !! k) <-> cession_column treaty_df k) /\
  (exists claims, frame_columns f !! "claim"%string = Some claims /\
                  Forall (fun c => 0 < c) claims) /\
  Forall (fun e => e ∈ row_event_id <$> agglosses_df) (frame_event_id f) /\
  compatible (frame_policy_grp f) treaty_df.
Proof. apply by_policy_Ok_frame. Qed.

Lemma by_policy_frame_witness :
  let insured_losses := fun (losses : list Q) (ded lim : Q) =>
    (fun x => Qmax 0 (Qmin x lim - ded)) <$> losses in
  let treaty_df :=
    [Treaty "prop1" prop 0 1000 "A"; Treaty "wxl1" wxlr 100 500 "B";
     Treaty "cat1" catxl 200 800 "C"] in
  let pol_dict : gmap string Q :=
    <["policy"%string := 1]> (<["deductible"%string := 10]>
    (<["liability"%string := 2000]> (<["prop1"%string := 1 # 2]>
    (<["wxl1"%string := 1]> (<["cat1"%string := 1]> ∅))))) in
  let agglosses_df :=
    [LossRow 0 7 1010; LossRow 1 7 500; LossRow 0 8 5; LossRow 0 9 210] in
  exists f,
    by_policy insured_losses agglosses_df pol_dict treaty_df = Ok f /\
    frame_event_id f = [7%Z; 9%Z] /\
    length (frame_policy_id f) = length (frame_event_id f) /\
    map_Forall (fun _ v => length v = length (frame_event_id f))
               (frame_columns f) /\
    (forall k, is_Some (frame_columns f !! k) <-> cession_column treaty_df k) /\
    (exists claims, frame_columns f !! "claim"%string = Some claims /\
                    Forall (fun c => 0 < c) claims) /\
    Forall (fun e => e ∈ row_event_id <$> agglosses_df) (frame_event_id f) /\
    compatible (frame_policy_grp f) treaty_df.
Proof.
  intros insured_losses treaty_df pol_dict agglosses_df.
  destruct (by_policy insured_losses agglosses_df pol_dict treaty_df)
    as [f|e] eqn:E; [|vm_compute in E; discriminate E].
  exists f. split; [reflexivity|]. split.
  - vm_compute in E. inversion E. reflexivity.
  - exact (by_policy_frame insured_losses agglosses_df pol_dict treaty_df f E).
Defined.

(** X16.  The table of all policies.  When [group_by_policies]
    returns, there was at least one policy, the columns 'policy_id', 'claim',
    'retention' and those of the treaties that are not catxl are present with
    one entry per row and there is no other numeric column, every claim is
    positive, every event id comes from the table of losses, and every policy
    group fits the catalog. *)
Theorem group_by_policies_table
    (insured_losses : list Q -> Q -> Q -> list Q)
    (policy_dicts : list (gmap string Q)) (agglosses_df : list loss_row)
    (treaty_df : list treaty) (rbp : policy_loss_table) :
  group_by_policies insured_losses policy_dicts agglosses_df treaty_df
    = Ok rbp ->
  policy_dicts <> [] /\
  length (policy_grp rbp) = length (event_id rbp) /\
  Forall (fun e => e ∈ row_event_id <$> agglosses_df) (event_id rbp) /\
  Forall (fun key => compatible key treaty_df) (policy_grp rbp) /\
  (forall k, cession_column treaty_df k \/ k = "policy_id"%string ->
     exists v, columns rbp !! k = Some v /\
               length v = length (event_id rbp)) /\
  (forall k, ~ (cession_column treaty_df k \/ k = "policy_id"%string) ->
     columns rbp !! k = None) /\
  (exists claims, columns rbp !! "claim"%string = Some claims /\
                  Forall (fun c => 0 < c) claims).
Proof. apply group_by_policies_Ok. Qed.

Lemma group_by_policies_table_witness :
  let insured_losses := fun (losses : list Q) (ded lim : Q) =>
    (fun x => Qmax 0 (Qmin x lim - ded)) <$> losses in
  let treaty_df :=
    [Treaty "prop1" prop 0 1000 "A"; Treaty "wxl1" wxlr 100 500 "B";
     Treaty "cat1" catxl 200 800 "C"] in
  let pol1 : gmap string Q :=
    <["policy"%string := 1]> (<["deductible"%string := 10]>
    (<["liability"%string := 2000]> (<["prop1"%string := 1 # 2]>
    (<["wxl1"%string := 1]> (<["cat1"%string := 1]> ∅))))) in
  let pol2 : gmap string Q :=
    <["policy"%string := 2]> (<["deductible"%string := 0]>
    (<["liability"%string := 1000]> (<["prop1"%string := 0]>
    (<["wxl1"%string := 0]> (<["cat1"%string := 0]> ∅))))) in
  let agglosses_df :=
    [LossRow 0 7 1010; LossRow 1 7 500; LossRow 0 8 5; LossRow 1 9 0] in
  exists rbp,
    group_by_policies insured_losses [pol1; pol2] agglosses_df treaty_df
      = Ok rbp /\
    event_id rbp = [7%Z; 7%Z] /\
    policy_grp rbp = ["ABC"%string; "AB."%string] /\
    [pol1; pol2] <> [] /\
    length (policy_grp rbp) = length (event_id rbp) /\
    Forall (fun e => e ∈ row_event_id <$> agglosses_df) (event_id rbp) /\
    Forall (fun key => compatible key treaty_df) (policy_grp rbp) /\
    (forall k, cession_column treaty_df k \/ k = "policy_id"%string ->
       exists v, columns rbp !! k = Some v /\
                 length v = length (event_id rbp)) /\
    (forall k, ~ (cession_column treaty_df k \/ k = "policy_id"%string) ->
       columns rbp !! k = None) /\
    (exists claims, columns rbp !! "claim"%string = Some claims /\
                    Forall (fun c => 0 < c) claims).
Proof.
  intros insured_losses treaty_df pol1 pol2 agglosses_df.
  destruct (group_by_policies insured_losses [pol1; pol2] agglosses_df
              treaty_df) as [rbp|e] eqn:E; [|vm_compute in E; discriminate E].
  exists rbp. split; [reflexivity|].
  split; [vm_compute in E; inversion E; reflexivity|].
  split; [vm_compute in E; inversion E; reflexivity|].
  exact (group_by_policies_table insured_losses [pol1; pol2] agglosses_df
           treaty_df rbp E).
Defined.

(** X17.  From the policies to the events.  For a catalog with
    distinct codes whose catxl treaties come after the others, the table that
    [group_by_policies] returns, when it has a row, is accepted by
    [_by_event], which returns the table of its distinct event ids. *)
Theorem group_by_policies_by_event (depth : nat)
    (insured_losses : list Q -> Q -> Q -> list Q)
    (policy_dicts : list (gmap string Q)) (agglosses_df : list loss_row)
    (treaty_df : list treaty) (rbp : policy_loss_table) :
  NoDup (code <$> treaty_df) -> aligned treaty_df ->
  (length treaty_df < depth)%nat ->
  group_by_policies insured_losses policy_dicts agglosses_df treaty_df
    = Ok rbp ->
  event_id rbp <> [] ->
  exists df, _by_event depth rbp treaty_df = Ok df /\
             out_event_id df = np_unique (event_id rbp).
Proof.
  intros Hnd Hal Hdepth Hrbp Hne.
  apply group_by_policies_Ok in Hrbp
    as (_ & Hlen & _ & Hcompat & Hcols & _ & _).
  destruct (by_event_exact depth rbp treaty_df Hnd Hal Hdepth)
    as (df & _ & _ & _ & Hdf & Hev & _); [| | | exact Hcompat | eauto].
  - destruct (Hcols "claim"%string) as (v & Hv & _);
      [left; left; reflexivity | rewrite Hv; eauto].
  - intros tr Htr Hty. destruct (Hcols (id tr)) as (v & Hv & _);
      [left; right; right; eauto | rewrite Hv; eauto].
  - intros Hnil. rewrite Hnil in Hlen. destruct (event_id rbp);
      [contradiction | discriminate Hlen].
Qed.

Lemma group_by_policies_by_event_witness :
  let insured_losses := fun (losses : list Q) (ded lim : Q) =>
    (fun x => Qmax 0 (Qmin x lim - ded)) <$> losses in
  let treaty_df :=
    [Treaty "prop1" prop 0 1000 "A"; Treaty "wxl1" wxlr 100 500 "B";
     Treaty "cat1" catxl 200 800 "C"] in
  let pol1 : gmap string Q :=
    <["policy"%string := 1]> (<["deductible"%string := 10]>
    (<["liability"%string := 2000]> (<["prop1"%string := 1 # 2]>
    (<["wxl1"%string := 1]> (<["cat1"%string := 1]> ∅))))) in
  let pol2 : gmap string Q :=
    <["policy"%string := 2]> (<["deductible"%string := 0]>
    (<["liability"%string := 1000]> (<["prop1"%string := 0]>
    (<["wxl1"%string := 0]> (<["cat1"%string := 0]> ∅))))) in
  let agglosses_df :=
    [LossRow 0 7 1010; LossRow 1 7 500; LossRow 0 8 5; LossRow 1 9 300] in
  exists rbp df,
    group_by_policies insured_losses [pol1; pol2] agglosses_df treaty_df
      = Ok rbp /\
    _by_event 5 rbp treaty_df = Ok df /\
    out_event_id df = np_unique (event_id rbp).
Proof.
  intros insured_losses treaty_df pol1 pol2 agglosses_df.
  destruct (group_by_policies insured_losses [pol1; pol2] agglosses_df
              treaty_df) as [rbp|e] eqn:E; [|vm_compute in E; discriminate E].
  destruct (group_by_policies_by_event 5 insured_losses [pol1; pol2]
              agglosses_df treaty_df rbp) as (df & Hdf & Hev).
  - apply (bool_decide_unpack (NoDup _)). vm_compute. exact I.
  - intros [|[|[|i]]] [|[|[|j]]] ti tj Hlt Hi Hj Hty; try lia;
      try discriminate Hi; try discriminate Hj;
      inversion Hi; subst; discriminate Hty.
  - simpl. lia.
  - exact E.
  - vm_compute in E. inversion E. discriminate.
  - exists rbp, df. auto.
Defined.

(** ** The check of the header *)

Section CheckFields.

Context `{Countable K}.

(** X18.  When [check_fields] raises [InvalidFile].  The field
    named in the message is one of the fields after the primary key and is
    absent from the header, and the column of the primary key is present: a
    missing primary key is not reported as [InvalidFile]. *)
Theorem check_fields_invalid_file (fields : list string)
    (dframe : gmap string (list K)) (idxdict : gmap K nat)
    (fname msg : string) :
  check_fields fields dframe idxdict fname = inl (InvalidFile msg) ->
  exists key rest field,
    fields = key :: rest /\ is_Some (dframe !! key) /\
    field ∈ rest /\ field <> key /\ dframe !! field = None /\
    msg = fname +:+ ": " +:+ field +:+ " is missing in the header".
Proof.
  unfold check_fields. destruct fields as [|key rest]; [discriminate|].
  destruct (dframe !! key) as [names|] eqn:Hkey; [|discriminate].
  destruct (mapM _ names) as [idx|]; [|discriminate].
  destruct (list_find _ (key :: rest)) as [[i field]|] eqn:Hfind;
    [|discriminate].
  intros Hmsg. inversion Hmsg; subst msg. clear Hmsg.
  apply list_find_Some in Hfind as (Hi & Hnone & _).
  assert (Hne : field <> key).
  { intros ->. rewrite lookup_insert_eq in Hnone. discriminate Hnone. }
  rewrite lookup_insert_ne in Hnone by congruence.
  rewrite lookup_fmap in Hnone. apply fmap_None in Hnone.
  exists key, rest, field. split; [reflexivity|]. split; [eauto|].
  split; [|auto].
  apply list_elem_of_lookup_2 in Hi. apply elem_of_cons in Hi as [?|?];
    [contradiction | assumption].
Qed.

(** X19.  When [check_fields] returns.  It returns exactly when
    the column of the primary key is present, each of its names has an index
    in [idxdict] and every other field is in the header; the frame is then the
    one on entry with the column of the primary key replaced by the
    indices. *)
Theorem check_fields_checked (key : string) (rest : list string)
    (dframe : gmap string (list K)) (idxdict : gmap K nat) (fname : string)
    (checked : gmap string (list K + list nat)) :
  check_fields (key :: rest) dframe idxdict fname = inr checked <->
  (exists names idx,
     dframe !! key = Some names /\
     Forall2 (fun name i => idxdict !! name = Some i) names idx /\
     checked = <[key := inr idx]> (inl <$> dframe)) /\
  Forall (fun field => is_Some (dframe !! field)) rest.
Proof.
  unfold check_fields. split.
  - destruct (dframe !! key) as [names|] eqn:Hkey; [|discriminate].
    destruct (mapM _ names) as [idx|] eqn:Hidx; [|discriminate].
    destruct (list_find _ (key :: rest)) as [[i field]|] eqn:Hfind;
      [discriminate|].
    intros Hc. inversion Hc; subst checked. clear Hc.
    apply mapM_Some in Hidx. split; [eauto|].
    apply list_find_None in Hfind. apply Forall_cons in Hfind as [_ Hrest].
    eapply Forall_impl; [exact Hrest|]. intros field Hf. simpl in Hf.
    destruct (decide (field = key)) as [->|Hne]; [eauto|].
    rewrite lookup_insert_ne, lookup_fmap in Hf by congruence.
    destruct (dframe !! field); [eauto | contradiction].
  - intros [(names & idx & Hkey & Hidx & ->) Hrest].
    rewrite Hkey. apply mapM_Some in Hidx. rewrite Hidx.
    destruct (list_find _ (key :: rest)) as [[i field]|] eqn:Hfind;
      [|reflexivity].
    exfalso. apply list_find_Some in Hfind as (Hi & Hnone & _).
    apply list_elem_of_lookup_2 in Hi.
    destruct (decide (field = key)) as [->|Hne].
    + rewrite lookup_insert_eq in Hnone. discriminate Hnone.
    + rewrite lookup_insert_ne, lookup_fmap in Hnone by congruence.
      apply elem_of_cons in Hi as [?|Hi]; [contradiction|].
      apply (proj1 (Forall_forall _ _) Hrest) in Hi as [v Hv].
      rewrite Hv in Hnone. discriminate Hnone.
Qed.

End CheckFields.

Lemma check_fields_invalid_file_witness :
  let fields := ["policy"; "deductible"; "liability"]%string in
  let dframe : gmap string (list string) :=
    <["policy"%string := ["p1"; "p2"]%string]>
      (<["deductible"%string := ["10"; "20"]%string]> ∅) in
  let idxdict : gmap string nat :=
    <["p1"%string := 1%nat]> (<["p2"%string := 2%nat]> ∅) in
  check_fields fields dframe idxdict "policy.csv"
    = inl (InvalidFile "policy.csv: liability is missing in the header") /\
  exists key rest field,
    fields = key :: rest /\ is_Some (dframe !! key) /\
    field ∈ rest /\ field <> key /\ dframe !! field = None /\
    "policy.csv: liability is missing in the header"%string
      = ("policy.csv" +:+ ": " +:+ field +:+ " is missing in the header")%string.
Proof.
  intros fields dframe idxdict.
  assert (E : check_fields fields dframe idxdict "policy.csv"
              = inl (InvalidFile
                       "policy.csv: liability is missing in the header"))
    by (vm_compute; reflexivity).
  split; [exact E|].
  exact (check_fields_invalid_file fields dframe idxdict "policy.csv" _ E).
Defined.

Lemma check_fields_checked_witness :
  let dframe : gmap string (list string) :=
    <["policy"%string := ["p2"; "p1"]%string]>
      (<["deductible"%string := ["10"; "20"]%string]> ∅) in
  let idxdict : gmap string nat :=
    <["p1"%string := 1%nat]> (<["p2"%string := 2%nat]> ∅) in
  check_fields ["policy"; "deductible"]%string dframe idxdict "policy.csv"
    = inr (<["policy"%string := inr [2%nat; 1%nat]]> (inl <$> dframe)).
Proof.
  intros dframe idxdict.
  apply (proj2 (check_fields_checked "policy" ["deductible"%string] dframe
                  idxdict "policy.csv" _)).
  split.
  - exists ["p2"; "p1"]%string, [2%nat; 1%nat].
    split; [reflexivity|]. split; [|reflexivity].
    repeat constructor.
  - repeat constructor. vm_compute. eauto.
Defined.
